(** * Fracture: a shallow embedding of [fracture.Project] and its plugins

    The development follows the Python sources:
    - [_utils.py]   : [Signal]
    - [_scan.py]    : the abstract [ScanProcess]
    - [built-in/filescanner.py] : the file scanner
    - [_element.py] : [DataElement]
    - [_project.py] : [Project] and [ConnectionContext]

    Python strings are modelled as [string] (one [ascii] per character),
    dictionaries as [gmap], sets as [gset].  Calls that can raise return a
    [Result]; code that also touches the database runs in the monad [M],
    which threads the database and keeps it when an exception propagates
    (the [ConnectionContext] commits in [__exit__] whatever happened). *)

From Stdlib Require Import ZArith NArith String Ascii.
From stdpp Require Import base option list strings pretty gmap sets.

Set Warnings "-clear-no-such-hyp".

Open Scope string_scope.
Open Scope list_scope.

(** ** Python exceptions and results *)

Inductive Exn :=
  | IndexError
  | ValueError
  | TypeError
  | AttributeError
  | ReError
  | PluginError.

Inductive Result (A : Type) :=
  | Ok (a : A)
  | Raise (e : Exn).
Arguments Ok {A} a.
Arguments Raise {A} e.

Definition rbind {A B} (r : Result A) (k : A → Result B) : Result B :=
  match r with
  | Ok a => k a
  | Raise e => Raise e
  end.

(** A list comprehension whose element expression can raise. *)
Fixpoint map_result {A B} (f : A → Result B) (l : list A) : Result (list B) :=
  match l with
  | [] => Ok []
  | x :: r => rbind (f x) (λ y, rbind (map_result f r) (λ ys, Ok (y :: ys)))
  end.

(** [s[i]] on a Python string: [IndexError] out of range. *)
Definition str_index (s : string) (i : nat) : Result ascii :=
  match String.get i s with
  | Some c => Ok c
  | None => Raise IndexError
  end.

(** [l[i]] on a Python list. *)
Definition list_index {A} (l : list A) (i : nat) : Result A :=
  match l !! i with
  | Some x => Ok x
  | None => Raise IndexError
  end.

Definition ascii_neqb (a b : ascii) : bool := negb (Ascii.eqb a b).

(** [str.replace(old, new)] for single characters. *)
Fixpoint replace_char (old new : ascii) (s : string) : string :=
  match s with
  | EmptyString => EmptyString
  | String c r =>
      String (if Ascii.eqb c old then new else c) (replace_char old new r)
  end.

(** [str.lower()] on the ASCII letters. *)
Definition lower_ascii (c : ascii) : ascii :=
  let n := nat_of_ascii c in
  if (65 <=? n)%nat && (n <=? 90)%nat then ascii_of_nat (n + 32) else c.

Fixpoint lower (s : string) : string :=
  match s with
  | EmptyString => EmptyString
  | String c r => String (lower_ascii c) (lower r)
  end.

(** [needle in hay]. *)
Fixpoint contains (hay needle : string) : bool :=
  String.prefix needle hay ||
  match hay with
  | EmptyString => false
  | String _ r => contains r needle
  end.

(** ** [_scan.py]: the scan plugin interface *)

Inductive CheckResult := IS_VALID | NOT_VALID | UNKNOWN.

Global Instance CheckResult_eq_dec : EqDecision CheckResult.
Proof. solve_decision. Defined.

(** What a generator produces: the items yielded and, when the generator
    raises after them, the exception. *)
Record Enumeration := {
  yielded : list string;
  failure : option Exn;
}.

(** A location handed to a scan plugin; [None] is Python's [None], which
    reaches the plugins when the stored list of scan locations is [None]. *)
Definition Location := option string.

Record ScanPlugin := {
  scan_type : string;
  sp_can_represent : Location → Result bool;
  sp_identifiers : Location → option (list string) → bool → Enumeration;
  sp_check : string → Result CheckResult;
}.

(** The abstract [ScanProcess]. *)
Definition ScanProcess : ScanPlugin := {|
  scan_type := "";
  sp_can_represent := λ _, Ok false;
  sp_identifiers := λ _ _ _, {| yielded := []; failure := None |};
  sp_check := λ _, Ok UNKNOWN;
|}.

(** ** [built-in/filescanner.py] *)

Module FileScanner.

(** The file system as the scanner sees it. *)
Record FileSystem := {
  path_exists : string → bool;
  (** [os.walk] / [os.listdir] followed by the join and the skip test *)
  enumerate : string → option (list string) → bool → Enumeration;
}.

Definition can_represent (fs : FileSystem) (location : Location)
  : Result bool :=
  match location with
  | None => Raise TypeError
  | Some l => if path_exists fs l then Ok true else Ok false
  end.

Definition identifiers (fs : FileSystem) (location : Location)
    (skip_pattern : option (list string)) (recursive : bool) : Enumeration :=
  match location with
  | None => {| yielded := []; failure := Some TypeError |}
  | Some l => enumerate fs l skip_pattern recursive
  end.

Definition check (fs : FileSystem) (identifier : string)
  : Result CheckResult :=
  if (String.length identifier <? 2)%nat then Ok UNKNOWN else
  rbind (str_index identifier 1) (λ c1,
  if ascii_neqb c1 ":" then Ok UNKNOWN else
  rbind (str_index identifier 2) (λ c2,
  if ascii_neqb c2 "\" && ascii_neqb c2 "/" then Ok UNKNOWN else
  if negb (path_exists fs identifier) then Ok NOT_VALID else
  Ok IS_VALID)).

Definition plugin (fs : FileSystem) : ScanPlugin := {|
  scan_type := "file_scanner";
  sp_can_represent := can_represent fs;
  sp_identifiers := identifiers fs;
  sp_check := check fs;
|}.

End FileScanner.

(** ** [_utils.py]: signals *)

(** A connected callable, by what it does when called: return or raise. *)
Definition Callable := list string → Result unit.

Record Signal := { _callables : list Callable }.

Definition connect (sig : Signal) (item : Callable) : Signal :=
  {| _callables := _callables sig ++ [item] |}.

Fixpoint emit_callables (callables : list Callable) (args : list string)
  : Result unit :=
  match callables with
  | [] => Ok ()
  | item :: rest => rbind (item args) (λ _, emit_callables rest args)
  end.

Definition emit (sig : Signal) (args : list string) : Result unit :=
  emit_callables (_callables sig) args.

(** ** [_element.py]: data plugins *)

(** A data plugin class, by its attributes and by what its methods do for an
    identifier: the classmethod [can_represent], the constructor call
    [data_plugin(identifier, self)] and [mandatory_tags] are plugin code and
    can raise. *)
Record DataPlugin := {
  data_type : string;
  version : Z;
  priority : Z;
  dp_can_represent : string → Result bool;
  dp_init : string → Result unit;
  dp_mandatory_tags : string → Result (list string);
}.

(** [data_plugin.can_represent(identifier)] returns [True]. *)
Definition represents (p : DataPlugin) (identifier : string) : bool :=
  match dp_can_represent p identifier with
  | Ok true => true
  | _ => false
  end.

(** [sorted(plugins, key=lambda x: x.priority, reverse=True)]: descending
    and stable (plugins of equal priority keep their order). *)
Fixpoint insert_by_priority (p : DataPlugin) (l : list DataPlugin)
  : list DataPlugin :=
  match l with
  | [] => [p]
  | q :: r =>
      if (priority q <=? priority p)%Z then p :: q :: r
      else q :: insert_by_priority p r
  end.

Definition sorted_by_priority (l : list DataPlugin) : list DataPlugin :=
  foldr insert_by_priority [] l.

(** The composite returned by [Project.get]: the plugins bound to the
    template, in binding order. *)
Definition Composite := list DataPlugin.

(** Modelled from the spec: [xcomposite.extend_unique], of the external
    [xcomposite] package, is missing.  Union-unique: every bound plugin is
    evaluated, in binding order, the results are concatenated, duplicates
    dropped, first-seen order kept; an exception of a plugin propagates. *)
Definition mandatory_tags (element : Composite) (identifier : string)
  : Result (list string) :=
  rbind (map_result (λ p, dp_mandatory_tags p identifier) element)
        (λ results, Ok (remove_dups (concat results))).

(** ** The database *)

Inductive SettingValue :=
  | VList (l : list string)
  | VNone.

(** The text in the settings row, by what [json.loads] makes of it: the
    encoding of a settings dictionary ([json.dumps] of it), or text that is
    not JSON. *)
Inductive Blob :=
  | Json (settings : gmap string SettingValue)
  | Malformed (raw : string).

Record Element := {
  el_name : string;
  el_tags : gset string;
}.

Record Database := {
  elements_of : gmap string Element;
  tag_rows : gset string;
  settings_row : option Blob;
}.

Definition empty_db : Database :=
  {| elements_of := ∅; tag_rows := ∅; settings_row := None |}.

Definition with_elements (d : Database) (e : gmap string Element) : Database :=
  {| elements_of := e; tag_rows := tag_rows d; settings_row := settings_row d |}.

Definition with_tag_rows (d : Database) (t : gset string) : Database :=
  {| elements_of := elements_of d; tag_rows := t; settings_row := settings_row d |}.

Definition with_settings_row (d : Database) (b : option Blob) : Database :=
  {| elements_of := elements_of d; tag_rows := tag_rows d; settings_row := b |}.

Definition add_tag (t : string) (e : Element) : Element :=
  {| el_name := el_name e; el_tags := {[t]} ∪ el_tags e |}.

Definition rem_tag (t : string) (e : Element) : Element :=
  {| el_name := el_name e; el_tags := el_tags e ∖ {[t]} |}.

(** [l[:limit]] with the limit a binary number. *)
Fixpoint take_N {A} (n : N) (l : list A) : list A :=
  match l with
  | [] => []
  | x :: r => if (n =? 0)%N then [] else x :: take_N (N.pred n) r
  end.

(** The clauses [Project.find] splices into [find.sql]. *)
Inductive Clause :=
  | TagEq (t : string)
  | IdentifierLike (t : string)
  | NameLike (t : string)
  | COr (a b : Clause)
  | CAnd (a b : Clause).

(** Modelled from the spec: the statements under [sql/] are missing.
    [add] and [remove] are idempotent insert and delete; [tags_add] and
    [tags_rem] are set union and set difference on the tags of an existing
    identifier, comparing tags exactly; [tag_insert] adds a tag row and
    [tag_connect] links an existing identifier to an existing tag row, a
    repeated link leaving the link table as it is; [find_all] returns the
    identifiers up to the limit; [find] returns the identifiers one of
    whose assigned tags satisfies the tag clause, or whose identifier
    satisfies the identifier clause and whose name satisfies the name clause,
    [LIKE '%t%'] read as containment of [t], the number of tags handed over
    as [COMPARE_COUNT] having no part in it; the settings are one row.
    Touching an identifier that is not there is a no-op. *)
Module Sql.

Definition add (identifier name : string) (d : Database) : Database :=
  match elements_of d !! identifier with
  | Some _ => d
  | None =>
      with_elements d
        (<[identifier := {| el_name := name; el_tags := ∅ |}]> (elements_of d))
  end.

Definition remove (identifier : string) (d : Database) : Database :=
  with_elements d (delete identifier (elements_of d)).

Definition tag_insert (tag : string) (d : Database) : Database :=
  with_tag_rows d ({[tag]} ∪ tag_rows d).

Definition tag_connect (identifier tag : string) (d : Database) : Database :=
  if bool_decide (tag ∈ tag_rows d)
  then with_elements d (alter (add_tag tag) identifier (elements_of d))
  else d.

Definition tags_add (identifier tag : string) (d : Database) : Database :=
  tag_connect identifier tag (tag_insert tag d).

Definition tags_rem (identifier tag : string) (d : Database) : Database :=
  with_elements d (alter (rem_tag tag) identifier (elements_of d)).

Definition tags_get (identifier : string) (d : Database) : list string :=
  match elements_of d !! identifier with
  | Some e => elements (el_tags e)
  | None => []
  end.

(** A row of a [get] statement: [row[1]] is the identifier. *)
Definition row (entry : string * Element) : list string :=
  [el_name entry.2; entry.1].

Definition find_all (limit : N) (d : Database) : list (list string) :=
  row <$> take_N limit (map_to_list (elements_of d)).

Fixpoint holds_tag (c : Clause) (tag : string) : bool :=
  match c with
  | TagEq t => String.eqb tag t
  | COr a b => holds_tag a tag || holds_tag b tag
  | CAnd a b => holds_tag a tag && holds_tag b tag
  | IdentifierLike _ | NameLike _ => false
  end.

Fixpoint holds_text (c : Clause) (identifier name : string) : bool :=
  match c with
  | IdentifierLike t => contains identifier t
  | NameLike t => contains name t
  | COr a b => holds_text a identifier name || holds_text b identifier name
  | CAnd a b => holds_text a identifier name && holds_text b identifier name
  | TagEq _ => false
  end.

Definition matches (tag_compare like_compare name_compare : Clause)
    (entry : string * Element) : bool :=
  existsb (holds_tag tag_compare) (elements (el_tags entry.2))
  || (holds_text like_compare entry.1 (el_name entry.2)
      && holds_text name_compare entry.1 (el_name entry.2)).

Definition find (tag_compare like_compare name_compare : Clause)
    (compare_count : nat) (limit : N) (d : Database) : list (list string) :=
  row <$> take_N limit
    (filter (λ entry, matches tag_compare like_compare name_compare entry = true)
            (map_to_list (elements_of d))).

Definition settings_get (d : Database) : list (list Blob) :=
  match settings_row d with
  | Some b => [[b]]
  | None => []
  end.

Definition settings_set (b : Blob) (d : Database) : Database :=
  with_settings_row d (Some b).

End Sql.

(** ** [_project.py] *)

(** An emission of one of the project's two signals. *)
Inductive Event :=
  | EvScanned (identifier : string)
  | EvScanComplete.

Global Instance Event_eq_dec : EqDecision Event.
Proof. solve_decision. Defined.

(** What a call can change: the database, and the emissions so far. *)
Record World := {
  db : Database;
  emitted : list Event;
}.

Definition M (A : Type) : Type := World → Result A * World.

Definition mret {A} (a : A) : M A := λ w, (Ok a, w).

Definition bindM {A B} (m : M A) (k : A → M B) : M B :=
  λ w, match m w with
       | (Ok a, w') => k a w'
       | (Raise e, w') => (Raise e, w')
       end.

Definition mraise {A} (e : Exn) : M A := λ w, (Raise e, w).

Definition lift {A} (r : Result A) : M A := λ w, (r, w).

Notation "'do' x <- m ; k" := (bindM m (λ x, k))
  (at level 10, x name, m at level 100, k at level 200).
Notation "'do_' m ; k" := (bindM m (λ _, k))
  (at level 10, m at level 100, k at level 200).

(** [_execute] inside a committing [ConnectionContext]. *)
Definition execute (command : Database → Database) : M unit :=
  λ w, (Ok (), {| db := command (db w); emitted := emitted w |}).

(** [_execute] inside a [get=True] context: [ctxt.results]. *)
Definition fetch {A} (query : Database → A) : M A :=
  λ w, (Ok (query (db w)), w).

Definition signal (e : Event) (sig : Signal) (args : list string) : M unit :=
  λ w, (emit sig args, {| db := db w; emitted := emitted w ++ [e] |}).

(** [try: m  except IndexError: handler] *)
Definition except_IndexError {A} (m handler : M A) : M A :=
  λ w, match m w with
       | (Raise IndexError, w') => handler w'
       | r => r
       end.

Fixpoint for_each {A} (l : list A) (body : A → M unit) : M unit :=
  match l with
  | [] => mret ()
  | x :: r => do_ body x; for_each r body
  end.

(** An argument that may be [None], one string, or a list or a tuple of
    strings. *)
Inductive PyArg :=
  | ANone
  | AStr (s : string)
  | AList (l : list string)
  | ATuple (l : list string).

Record Project := {
  scanned : Signal;
  scan_complete : Signal;
  (** [self._scan_factory.plugins()] *)
  scan_plugins : list ScanPlugin;
  (** [self._data_factory.plugins()]: the classes the factory lists.  The
      [factories] package is not part of the project; the factory is built
      with [abstract], [paths] and [plugin_identifier='data_type'], and what
      it lists is taken as it comes. *)
  data_plugins : list DataPlugin;
  (** Modelled from the spec: the display name [add.sql] stores with an
      identifier; the statement is given the identifier only. *)
  display_name : string → string;
  (** [re.compile] of the standard library, by its outcome on a pattern
      text: it returns, or raises [re.error]. *)
  re_compile : string → Result unit;
}.

(** [self._data_plugins], cached by [__init__]. *)
Definition _data_plugins (self : Project) : list DataPlugin :=
  sorted_by_priority (data_plugins self).

Definition default_limit : N := 9 ^ 9.

(** [limit or 9 ** 9] *)
Definition effective_limit (limit : option N) : N :=
  match limit with
  | Some n => if (n =? 0)%N then default_limit else n
  | None => default_limit
  end.

Definition find (tags : PyArg) (limit : option N) : M (list string) :=
  let limit := effective_limit limit in
  let run (t : string) (ts : list string) :=
    fetch (Sql.find (foldl COr (TagEq t) (TagEq <$> ts))
                    (foldl CAnd (IdentifierLike t) (IdentifierLike <$> ts))
                    (foldl CAnd (NameLike t) (NameLike <$> ts))
                    (length (t :: ts)) limit) in
  do results <-
    match tags with
    | AList (t :: ts) | ATuple (t :: ts) => run t ts
    | AStr (String c s) => run (String c s) []
    | _ => fetch (Sql.find_all limit)
    end;
  lift (map_result (λ row, list_index row 1) results).

Definition tag (identifier : string) (tags : PyArg) : M unit :=
  let tags :=
    match tags with
    | AList l | ATuple l => Some <$> l
    | AStr s => [Some s]
    | ANone => [None]
    end in
  for_each tags (λ tag,
    match tag with
    | Some t => execute (Sql.tags_add identifier (lower t))
    | None => mraise AttributeError
    end).

Definition untag (identifier : string) (tags : PyArg) : M unit :=
  let tags :=
    match tags with
    | AList l | ATuple l => l
    | AStr s => [s]
    | ANone => ["None"]
    end in
  for_each tags (λ tag, execute (Sql.tags_rem identifier tag)).

Definition tags (identifier : string) : M (list string) :=
  fetch (Sql.tags_get identifier).

Definition add (self : Project) (identifier : string) : M unit :=
  execute (Sql.add identifier (display_name self identifier)).

Definition remove (identifier : string) : M unit :=
  execute (Sql.remove identifier).

Definition json_loads (b : Blob) : Result (gmap string SettingValue) :=
  match b with
  | Json s => Ok s
  | Malformed _ => Raise ValueError
  end.

Definition settings : M (gmap string SettingValue) :=
  do results <- fetch Sql.settings_get;
  except_IndexError
    (do row <- lift (list_index results 0);
     do blob <- lift (list_index row 0);
     lift (json_loads blob))
    (mret ∅).

Definition save_settings (s : gmap string SettingValue) : M unit :=
  execute (Sql.settings_set (Json s)).

(** [settings.get(key, list())] *)
Definition get_or_list (s : gmap string SettingValue) (key : string)
  : SettingValue :=
  default (VList []) (s !! key).

Definition _conform (item : string) : string := replace_char "\" "/" item.

(** [value + [item]] *)
Definition list_plus (v : SettingValue) (item : string) : Result SettingValue :=
  match v with
  | VList l => Ok (VList (l ++ [item]))
  | VNone => Raise TypeError
  end.

(** [value.remove(item)]: the call returns [None]. *)
Definition list_remove (v : SettingValue) (item : string) : Result SettingValue :=
  match v with
  | VList l => if bool_decide (item ∈ l) then Ok VNone else Raise ValueError
  | VNone => Raise AttributeError
  end.

Definition add_to_setting (key item : string) : M unit :=
  do s <- settings;
  do v <- lift (list_plus (get_or_list s key) (_conform item));
  save_settings (<[key := v]> s).

Definition remove_from_setting (key item : string) : M unit :=
  do s <- settings;
  do v <- lift (list_remove (get_or_list s key) item);
  save_settings (<[key := v]> s).

Definition scan_locations : M SettingValue :=
  do s <- settings; mret (get_or_list s "scan_locations").

Definition add_scan_location (location : string) : M unit :=
  add_to_setting "scan_locations" location.

Definition remove_scan_location (location : string) : M unit :=
  remove_from_setting "scan_locations" location.

Definition skip_regexes : M SettingValue :=
  do s <- settings; mret (get_or_list s "skip_regex").

Definition add_skip_regex (pattern : string) : M unit :=
  add_to_setting "skip_regex" pattern.

Definition remove_skip_regex (pattern : string) : M unit :=
  remove_from_setting "skip_regex" pattern.

Definition plugin_locations : M SettingValue :=
  do s <- settings; mret (get_or_list s "plugin_locations").

(** The settings part; the factories' [add_path] and [remove_path] that
    follow belong to the [factories] package. *)
Definition add_plugin_location (location : string) : M unit :=
  add_to_setting "plugin_locations" location.

Definition remove_plugin_location (location : string) : M unit :=
  remove_from_setting "plugin_locations" location.

(** The world after [remove_from_setting] stored the value returned by
    [remove] under the key. *)
Definition after_remove (key : string) (w : World)
    (s : gmap string SettingValue) : World :=
  {| db := Sql.settings_set (Json (<[key := VNone]> s)) (db w);
     emitted := emitted w |}.

(** The loop of [Project.get]: a plugin that can represent the identifier
    is constructed and bound to the template, which is created for the first
    of them; [template.bind] appends to the bound plugins. *)
Fixpoint bind_plugins (plugins : list DataPlugin) (identifier : string)
    (template : option Composite) : Result (option Composite) :=
  match plugins with
  | [] => Ok template
  | data_plugin :: rest =>
      rbind (dp_can_represent data_plugin identifier) (λ able,
        if able then
          rbind (dp_init data_plugin identifier) (λ _,
            bind_plugins rest identifier
              (Some (default [] template ++ [data_plugin])))
        else bind_plugins rest identifier template)
  end.

(** [Project.get]; [None] when no plugin can represent the identifier. *)
Definition get (self : Project) (identifier : string)
  : Result (option Composite) :=
  bind_plugins (_data_plugins self) identifier None.

(** *** [Project.scan] *)

(** The innermost loop of the discovery: the identifiers one plugin yields
    for one location, then the generator's exception if it raises. *)
Fixpoint scan_identifiers (self : Project) (identifiers : list string)
    (failure : option Exn) : M (list string) :=
  match identifiers with
  | [] =>
      match failure with
      | None => mret []
      | Some e => mraise e
      end
  | identifier :: rest =>
      do_ add self identifier;
      do_ signal (EvScanned identifier) (scanned self) [identifier];
      do found <- scan_identifiers self rest failure;
      mret (identifier :: found)
  end.

Fixpoint scan_location (self : Project) (plugins : list ScanPlugin)
    (location : Location) (skip_regex : option (list string))
    (recursive : bool) : M (list string) :=
  match plugins with
  | [] => mret []
  | scan_plugin :: rest =>
      do able <- lift (sp_can_represent scan_plugin location);
      do found <-
        (if negb able then mret []
         else
           let e := sp_identifiers scan_plugin location skip_regex recursive in
           scan_identifiers self (yielded e) (failure e));
      do more <- scan_location self rest location skip_regex recursive;
      mret (found ++ more)
  end.

Fixpoint discover (self : Project) (locations : list Location)
    (skip_regex : option (list string)) (recursive : bool) : M (list string) :=
  match locations with
  | [] => mret []
  | location :: rest =>
      do found <-
        scan_location self (scan_plugins self) location skip_regex recursive;
      do more <- discover self rest skip_regex recursive;
      mret (found ++ more)
  end.

(** The first loop of a full scan: [all_tags] and [mapped_tags]. *)
Fixpoint expected_tags (self : Project) (scanned_identifiers : list string)
    (all_tags : list string) (mapped_tags : gmap string (list string))
  : Result (list string * gmap string (list string)) :=
  match scanned_identifiers with
  | [] => Ok (all_tags, mapped_tags)
  | scanned_identifier :: rest =>
      rbind (get self scanned_identifier) (λ element,
        match element with
        | None => expected_tags self rest all_tags mapped_tags
        | Some element =>
            rbind (mandatory_tags element scanned_identifier) (λ expected,
              expected_tags self rest (all_tags ++ expected)
                (<[scanned_identifier := expected]> mapped_tags))
        end)
  end.

(** The inner loop of the cleanup, with its [break]. *)
Fixpoint check_identifier (plugins : list ScanPlugin) (identifier : string)
  : M unit :=
  match plugins with
  | [] => mret ()
  | scan_plugin :: rest =>
      do verdict <- lift (sp_check scan_plugin identifier);
      if decide (verdict = NOT_VALID) then remove identifier
      else check_identifier rest identifier
  end.

(** The data cleanup that ends a full scan. *)
Definition cleanup (self : Project) : M unit :=
  do identifiers <- find ANone None;
  for_each identifiers (check_identifier (scan_plugins self)).

Definition full_scan (self : Project) (scanned_identifiers : list string)
  : M unit :=
  do expected <- lift (expected_tags self scanned_identifiers [] ∅);
  let '(all_tags, mapped_tags) := expected in
  do_ for_each (elements (list_to_set all_tags : gset string))
        (λ tag, execute (Sql.tag_insert tag));
  do_ for_each (map_to_list mapped_tags)
        (λ '(scanned_identifier, tags),
           for_each tags (λ tag,
             execute (Sql.tag_connect scanned_identifier tag)));
  cleanup self.

(** ['%s' % value]: a tuple is taken for the arguments of the format, of
    which there must be exactly one. *)
Definition format_s (value : PyArg) : Result unit :=
  match value with
  | ATuple [_] => Ok ()
  | ATuple _ => Raise TypeError
  | _ => Ok ()
  end.

(** ['(' + ')|('.join(patterns) + ')'] *)
Definition skip_pattern_text (patterns : list string) : string :=
  "(" +:+ String.concat ")|(" patterns +:+ ")".

(** The skip pattern, if any pattern is stored; a compiled pattern is kept
    as the patterns it was compiled from. *)
Definition skip_of (patterns : SettingValue) : option (list string) :=
  match patterns with
  | VList (p :: ps) => Some (p :: ps)
  | _ => None
  end.

(** [if patterns: skip_regex = re.compile(...)] *)
Definition compile_skip (self : Project) (patterns : SettingValue)
  : Result (option (list string)) :=
  match skip_of patterns with
  | Some stored =>
      rbind (re_compile self (skip_pattern_text stored)) (λ _, Ok (Some stored))
  | None => Ok None
  end.

(** A stored value as the list the location loop runs over. *)
Definition as_locations (stored : SettingValue) : list Location :=
  match stored with
  | VList l => Some <$> l
  | VNone => [None]
  end.

(** [Project.scan].  The opening log line formats [locations]; the closing
    one formats the list, or the one-element tuple the opening one took, and
    returns. *)
Definition scan (self : Project) (locations : PyArg) (recursive full : bool)
  : M (list string) :=
  do_ lift (format_s locations);
  do patterns <- skip_regexes;
  do skip_regex <- lift (compile_skip self patterns);
  do locations <-
    match locations with
    | AList (l :: ls) | ATuple (l :: ls) => mret (Some <$> (l :: ls))
    | AStr (String c s) => mret [Some (String c s)]
    | _ => do stored <- scan_locations; mret (as_locations stored)
    end;
  do scanned_identifiers <- discover self locations skip_regex recursive;
  do_ (if full then full_scan self scanned_identifiers else mret ());
  do_ signal EvScanComplete (scan_complete self) [];
  mret scanned_identifiers.

(** ** Notions used to state the properties *)

(** The locations a scan runs over, given the settings it reads. *)
Definition locations_of (locations : PyArg) (s : gmap string SettingValue)
  : list Location :=
  match locations with
  | AList (l :: ls) | ATuple (l :: ls) => Some <$> (l :: ls)
  | AStr (String c r) => [Some (String c r)]
  | _ => as_locations (get_or_list s "scan_locations")
  end.

(** The scan gets as far as the discovery: the log line formats the
    locations, the settings load and the stored skip patterns compile. *)
Definition loads (self : Project) (locations : PyArg) (w : World)
    (s : gmap string SettingValue) : Prop :=
  format_s locations = Ok ()
  ∧ fst (settings w) = Ok s
  ∧ compile_skip self (get_or_list s "skip_regex")
    = Ok (skip_of (get_or_list s "skip_regex")).

(** How a scan starts: the exception it raises before the discovery, or the
    settings it goes on with. *)
Definition prelude (self : Project) (locations : PyArg) (w : World)
  : Result (gmap string SettingValue) :=
  rbind (format_s locations) (λ _,
  rbind (fst (settings w)) (λ s,
  rbind (compile_skip self (get_or_list s "skip_regex")) (λ _, Ok s))).


(** What one plugin yields for one location. *)
Definition yields (scan_plugin : ScanPlugin) (location : Location)
    (skip_regex : option (list string)) (recursive : bool) : list string :=
  match sp_can_represent scan_plugin location with
  | Ok true => yielded (sp_identifiers scan_plugin location skip_regex recursive)
  | _ => []
  end.

(** The identifiers yielded in a pass, in discovery order, repetitions
    kept. *)
Definition discovered (plugins : list ScanPlugin) (locations : list Location)
    (skip_regex : option (list string)) (recursive : bool) : list string :=
  concat ((λ location,
             concat ((λ p, yields p location skip_regex recursive) <$> plugins))
          <$> locations).

(** The plugins return for these locations: [can_represent] answers and the
    generator of a plugin that can represent the location ends. *)
Definition sources_return (plugins : list ScanPlugin)
    (locations : list Location) (skip_regex : option (list string))
    (recursive : bool) : Prop :=
  ∀ location p, location ∈ locations → p ∈ plugins →
    ∃ able, sp_can_represent p location = Ok able
            ∧ (able = true →
               failure (sp_identifiers p location skip_regex recursive) = None).

(** Every [check] returns a verdict for the identifiers of the catalog. *)
Definition checks_return (plugins : list ScanPlugin) (d : Database) : Prop :=
  ∀ p identifier, p ∈ plugins → is_Some (elements_of d !! identifier) →
    ∃ verdict, sp_check p identifier = Ok verdict.

(** No connected callable raises. *)
Definition quiet (sig : Signal) : Prop := ∀ args, emit sig args = Ok ().

(** Some plugin's [check] returns [NOT_VALID]. *)
Definition condemned (plugins : list ScanPlugin) (identifier : string) : Prop :=
  ∃ p, p ∈ plugins ∧ sp_check p identifier = Ok NOT_VALID.

(** The entry [add] creates for an identifier. *)
Definition fresh (self : Project) (identifier : string) : Element :=
  {| el_name := display_name self identifier; el_tags := ∅ |}.

(** The database after the identifiers were added. *)
Definition added (self : Project) (identifiers : list string) (d : Database)
  : Database :=
  foldl (λ d identifier, Sql.add identifier (display_name self identifier) d)
        d identifiers.

(** The world after the identifiers were added and announced. *)
Definition found (self : Project) (identifiers : list string) (w : World)
  : World :=
  {| db := added self identifiers (db w);
     emitted := emitted w ++ (EvScanned <$> identifiers) |}.

(** The boolean reading of [condemned]. *)
Definition not_valid (p : ScanPlugin) (identifier : string) : bool :=
  match sp_check p identifier with
  | Ok NOT_VALID => true
  | _ => false
  end.

Definition condemnedb (plugins : list ScanPlugin) (identifier : string)
  : bool :=
  existsb (λ p, not_valid p identifier) plugins.

(** Linking one scanned identifier to its expected tags. *)
Definition connect_entry (entry : string * list string) (d : Database)
  : Database :=
  foldl (λ d t, Sql.tag_connect entry.1 t d) d entry.2.

(** What the cleanup does for one identifier of the catalog. *)
Definition cleanup_step (plugins : list ScanPlugin) (identifier : string)
    (d : Database) : Database :=
  if condemnedb plugins identifier then Sql.remove identifier d else d.

(** The database after the cleanup removed the condemned identifiers. *)
Definition cleaned (plugins : list ScanPlugin) (d : Database) : Database :=
  with_elements d
    (filter (λ entry, condemnedb plugins entry.1 = false) (elements_of d)).

Definition with_tags (ts : gset string) (e : Element) : Element :=
  {| el_name := el_name e; el_tags := ts ∪ el_tags e |}.

Definition tags_for (mapped_tags : gmap string (list string))
    (identifier : string) : gset string :=
  match mapped_tags !! identifier with
  | Some ts => list_to_set ts
  | None => ∅
  end.

(** What the first loop of a full scan has collected when it returns. *)
Definition all_tags_of (self : Project) (scanned_identifiers : list string)
  : list string :=
  match expected_tags self scanned_identifiers [] ∅ with
  | Ok (all_tags, _) => all_tags
  | Raise _ => []
  end.

Definition mapped_tags_of (self : Project) (scanned_identifiers : list string)
  : gmap string (list string) :=
  match expected_tags self scanned_identifiers [] ∅ with
  | Ok (_, mapped_tags) => mapped_tags
  | Raise _ => ∅
  end.

(** The database after the tags expected for the scanned identifiers were
    inserted and linked. *)
Definition tagged (self : Project) (scanned_identifiers : list string)
    (d : Database) : Database :=
  {| elements_of :=
       map_imap (λ identifier e,
                   Some (with_tags
                           (tags_for (mapped_tags_of self scanned_identifiers)
                                     identifier) e))
                (elements_of d);
     tag_rows := list_to_set (all_tags_of self scanned_identifiers) ∪ tag_rows d;
     settings_row := settings_row d |}.

(** What a full scan that found the identifiers makes of the database. *)
Definition scanned_db (self : Project) (identifiers : list string)
    (d : Database) : Database :=
  cleaned (scan_plugins self)
    (tagged self identifiers (added self identifiers d)).

(** A computation whose only effect is to add and announce identifiers,
    whatever the world it starts from. *)
Definition tracks {A} (self : Project) (m : M A) (r : Result A)
    (identifiers : list string) : Prop :=
  ∀ w, m w = (r, found self identifiers w).

(** A computation that emits nothing, whether it returns or raises. *)
Definition silent {A} (m : M A) : Prop :=
  ∀ w, emitted (snd (m w)) = emitted w.

(** The catalog fits under the default limit of [find]. *)
Definition within_limit (n : nat) : Prop := (N.of_nat n ≤ default_limit)%N.

(** A plugin with another version, and a project whose factory lists other
    plugins. *)
Definition reversioned (v : DataPlugin → Z) (p : DataPlugin) : DataPlugin :=
  {| data_type := data_type p; version := v p; priority := priority p;
     dp_can_represent := dp_can_represent p; dp_init := dp_init p;
     dp_mandatory_tags := dp_mandatory_tags p |}.

Definition reversioned_composite (v : DataPlugin → Z)
    (element : option Composite) : option Composite :=
  match element with
  | Some bound => Some (reversioned v <$> (bound : list DataPlugin))
  | None => None
  end.

Definition relisted (self : Project) (listed : list DataPlugin) : Project :=
  {| scanned := scanned self; scan_complete := scan_complete self;
     scan_plugins := scan_plugins self; data_plugins := listed;
     display_name := display_name self; re_compile := re_compile self |}.

(** ** What the specification says, in its own words *)

(** "Only the highest-version trait" of each kind: a plugin no other plugin
    of its kind exceeds in version, the first registered among equals. *)
Definition spec_highest_version (registered : list DataPlugin) (p : DataPlugin)
  : bool :=
  forallb (λ q, negb (String.eqb (data_type q) (data_type p))
                || (version q <=? version p)%Z) registered.

Fixpoint spec_unique_kinds (seen : list string) (l : list DataPlugin)
  : list DataPlugin :=
  match l with
  | [] => []
  | p :: r =>
      if bool_decide (data_type p ∈ seen) then spec_unique_kinds seen r
      else p :: spec_unique_kinds (data_type p :: seen) r
  end.

Definition spec_highest_versions (registered : list DataPlugin)
  : list DataPlugin :=
  spec_unique_kinds [] (filter (λ p, spec_highest_version registered p = true) registered).

(** "Filters registered traits by [can_represent(identifier)], deduplicates
    by kind keeping the highest version, sorts by priority"; absent when no
    trait matches. *)
Definition spec_bind (registered : list DataPlugin) (identifier : string)
  : option Composite :=
  match sorted_by_priority
          (spec_highest_versions
             (filter (λ p, represents p identifier = true) registered))
  with
  | [] => None
  | view => Some view
  end.

(** The specification's predicate for a tag list: (a) one of the assigned
    tags is one of the given tags, or (b) the identifier and the name each
    contain every given tag. *)
Definition spec_matches (tags : list string) (entry : string * Element)
  : bool :=
  existsb (λ assigned, existsb (String.eqb assigned) tags)
          (elements (el_tags entry.2))
  || (forallb (contains entry.1) tags
      && forallb (contains (el_name entry.2)) tags).


From Stdlib Require Import Sorted.

(** ** Further parts of the sources *)

(** [s.endswith(suffix)] *)
Fixpoint endswith (s suffix : string) : bool :=
  String.eqb s suffix ||
  match s with
  | EmptyString => false
  | String _ r => endswith r suffix
  end.

(** [c in s] for a character. *)
Fixpoint has_char (c : ascii) (s : string) : bool :=
  match s with
  | EmptyString => false
  | String x r => Ascii.eqb x c || has_char c r
  end.

(** [s.split(sep)] for a one-character separator. *)
Fixpoint split_char (sep : ascii) (s : string) : list string :=
  match s with
  | EmptyString => [EmptyString]
  | String c r =>
      if Ascii.eqb c sep then EmptyString :: split_char sep r
      else match split_char sep r with
           | [] => [String c EmptyString]
           | part :: parts => String c part :: parts
           end
  end.

(** [sep.join(parts)] for a one-character separator. *)
Fixpoint join_char (sep : ascii) (parts : list string) : string :=
  match parts with
  | [] => EmptyString
  | [part] => part
  | part :: rest => part +:+ String sep (join_char sep rest)
  end.

(** [parts[:-i]]; [parts[:-0]] is [parts[:0]], the empty list. *)
Definition slice_to_minus {A} (parts : list A) (i : nat) : list A :=
  if (i =? 0)%nat then [] else take (length parts - i) parts.

(** *** [_access.py] *)

Module Access.

(** The path [create] loads: [project_path], with ".fracture" appended
    unless it ends with "fracture". *)
Definition project_path (project_path : string) : string :=
  if negb (endswith project_path "fracture")
  then project_path +:+ ".fracture"
  else project_path.


End Access.

(** *** [Project.__init__]: the paths handed to the factories *)

(** [db_exists] is [os.path.exists(identifier)]; [built_in] stands for
    [constants.BUILT_IN_PLUGIN_DIR]. *)
Definition plugin_paths (db_exists : bool) (built_in : string)
  : M (list string) :=
  do stored <- (if db_exists then plugin_locations else mret (VList []));
  match stored with
  | VList l => mret (l ++ [built_in])
  | VNone => mraise AttributeError
  end.


(** The order of a composite: no plugin comes before one of higher
    priority. *)
Definition by_priority (p q : DataPlugin) : Prop :=
  (priority q ≤ priority p)%Z.

(** A computation that can only delete catalog entries: the entries it
    leaves are entries it found, and the tag rows and the settings stay. *)
Definition shrinks {A} (m : M A) : Prop :=
  ∀ w, elements_of (db (snd (m w))) ⊆ elements_of (db w)
       ∧ tag_rows (db (snd (m w))) = tag_rows (db w)
       ∧ settings_row (db (snd (m w))) = settings_row (db w).

(** *** [built-in/filescanner.py]: the file scanner on the [os] module *)

Module FileScannerOs.

(** The calls into [os] and [re] the scanner makes.  [os.walk] gives, for
    each directory it visits, the directory and its file names, and keeps
    quiet about directories it cannot read; [os.listdir] raises on them. *)
Record Os := {
  os_walk : string → list (string * list string);
  os_listdir : string → Result (list string);
  os_path_join : string → string → string;
  os_path_isdir : string → bool;
  (** [skip_pattern.search(result)] finds a match *)
  re_search : list string → string → bool;
}.

(** [not skip_pattern or not skip_pattern.search(result)] *)
Definition kept (os : Os) (skip_pattern : option (list string))
    (result : string) : bool :=
  match skip_pattern with
  | None => true
  | Some pattern => negb (re_search os pattern result)
  end.

(** The results one directory gives. *)
Definition results (os : Os) (skip_pattern : option (list string))
    (root : string) (filenames : list string) : list string :=
  List.filter (kept os skip_pattern)
    ((λ filename, replace_char "\" "/" (os_path_join os root filename))
     <$> filenames).

Definition identifiers (os : Os) (location : string)
    (skip_pattern : option (list string)) (recursive : bool) : Enumeration :=
  if recursive then
    {| yielded :=
         concat ((λ visit, results os skip_pattern visit.1 visit.2)
                 <$> os_walk os location);
       failure := None |}
  else
    match os_listdir os location with
    | Ok filenames =>
        {| yielded := results os skip_pattern location filenames;
           failure := None |}
    | Raise e => {| yielded := []; failure := Some e |}
    end.

Definition above (location : string) : list string :=
  let location := replace_char "\" "/" location in
  let parts := split_char "/" location in
  List.filter (λ folder_path,
                 negb (String.eqb folder_path "")
                 && negb (endswith folder_path ":"))
    ((λ i, join_char "/" (slice_to_minus parts i)) <$> seq 0 (length parts)).

Definition below (os : Os) (location : string) : Result (list string) :=
  rbind (os_listdir os location) (λ folders,
    Ok (List.filter (os_path_isdir os)
          ((λ folder, replace_char "\" "/" (os_path_join os location folder))
           <$> folders))).

(** The file system the built-in plugin sees through [os]. *)
Definition file_system (os : Os) (path_exists : string → bool)
  : FileScanner.FileSystem := {|
  FileScanner.path_exists := path_exists;
  FileScanner.enumerate := identifiers os;
|}.

End FileScannerOs.

(** *** [Project._command_dict]: the statements of the files under [sql/] *)

(** [c.isspace()] on the ASCII characters. *)
Definition isspace (c : ascii) : bool :=
  let n := nat_of_ascii c in
  ((9 <=? n) && (n <=? 13) || (28 <=? n) && (n <=? 32))%nat.

Fixpoint lstrip (s : string) : string :=
  match s with
  | EmptyString => EmptyString
  | String c r => if isspace c then lstrip r else s
  end.

Fixpoint rstrip (s : string) : string :=
  match s with
  | EmptyString => EmptyString
  | String c r =>
      match rstrip r with
      | EmptyString => if isspace c then EmptyString else String c EmptyString
      | r' => String c r'
      end
  end.

(** [s.strip()] *)
Definition strip (s : string) : string := rstrip (lstrip s).

(** [[statement.strip() for statement in text.split(';')
      if statement.strip()]] *)
Definition statements (text : string) : list string :=
  strip <$> List.filter (λ statement, negb (String.eqb (strip statement) ""))
              (split_char ";" text).

(** [command[:-4]] *)
Definition command_name (command : string) : string :=
  substring 0 (String.length command - 4) command.

(** The dictionary built from the files of the directory, each given by its
    name and its text, in the order [os.listdir] lists them. *)
Definition _command_dict (files : list (string * string))
  : gmap string (list string) :=
  foldl (λ command_dict file,
           <[command_name file.1 := statements file.2]> command_dict)
        ∅ files.

(** * Concrete projects, plugins and databases used below *)

Definition no_files : FileScanner.FileSystem := {|
  FileScanner.path_exists := λ _, false;
  FileScanner.enumerate := λ _ _ _, {| yielded := []; failure := None |};
|}.

(** Version 1 of the "file" plugin represents every identifier. *)
Definition file_v1 : DataPlugin := {|
  data_type := "file"; version := 1; priority := 1;
  dp_can_represent := λ _, Ok true;
  dp_init := λ _, Ok ();
  dp_mandatory_tags := λ _, Ok ["file"];
|}.

(** Version 2 represents the identifiers under "/v2/" only. *)
Definition file_v2 : DataPlugin := {|
  data_type := "file"; version := 2; priority := 1;
  dp_can_represent := λ identifier, Ok (String.prefix "/v2/" identifier);
  dp_init := λ _, Ok ();
  dp_mandatory_tags := λ _, Ok ["file"; "v2"];
|}.

Definition no_signal : Signal := {| _callables := [] |}.

(** A project whose data factory lists the given plugin classes. *)
Definition listing (listed : list DataPlugin) : Project := {|
  scanned := no_signal;
  scan_complete := no_signal;
  scan_plugins := [];
  data_plugins := listed;
  display_name := λ identifier, identifier;
  re_compile := λ _, Ok ();
|}.


Definition world_of (d : Database) : World := {| db := d; emitted := [] |}.

Definition one_element : World :=
  world_of (Sql.add "a.txt" "a.txt" empty_db).

Definition malformed_settings : World :=
  world_of (with_settings_row empty_db (Some (Malformed "{"))).

Definition one_location : World :=
  world_of (with_settings_row empty_db
    (Some (Json {[ "scan_locations" := VList ["/data"];
                   "skip_regex" := VList ["tmp"];
                   "plugin_locations" := VList ["/plugins"] ]}))).

(** A scan plugin that yields the same identifiers for every location. *)
Definition yielding (identifiers : list string) (failure : option Exn)
    (verdict : string → Result CheckResult) : ScanPlugin := {|
  scan_type := "fixed";
  sp_can_represent := λ _, Ok true;
  sp_identifiers := λ _ _ _, {| yielded := identifiers; failure := failure |};
  sp_check := verdict;
|}.

Definition project_of (plugins : list ScanPlugin) (on_scanned : list Callable)
  : Project := {|
  scanned := {| _callables := on_scanned |};
  scan_complete := no_signal;
  scan_plugins := plugins;
  data_plugins := [file_v1];
  display_name := λ identifier, identifier;
  re_compile := λ _, Ok ();
|}.

(** Two plugins that both yield "a.txt". *)
Definition two_sources : Project :=
  project_of [yielding ["a.txt"] None (λ _, Ok UNKNOWN);
              yielding ["a.txt"; "b.txt"] None (λ _, Ok UNKNOWN)] [].



(** The built-in file scanner over a file system on which nothing exists. *)
Definition drive_scanner : Project :=
  project_of [FileScanner.plugin no_files] [].

Definition untagged (name : string) : Element :=
  {| el_name := name; el_tags := ∅ |}.

Definition catalog_of (entries : gmap string Element) : World :=
  world_of {| elements_of := entries; tag_rows := ∅; settings_row := None |}.

(** A catalog with a stale drive path. *)
Definition stale_catalog : World :=
  catalog_of {[ "readme.txt" := untagged "readme.txt";
                "d:/gone.txt" := untagged "d:/gone.txt" ]}.

(** A catalog with a bare drive name next to the stale drive path. *)
Definition drive_catalog : World :=
  catalog_of {[ "c:" := untagged "c:";
                "d:/gone.txt" := untagged "d:/gone.txt" ]}.

(** A source that yields a file and an identifier its [check] rejects. *)
Definition tidy : Project :=
  project_of
    [yielding ["a.txt"; "gone.txt"] None
       (λ identifier,
          if String.eqb identifier "gone.txt" then Ok NOT_VALID
          else Ok UNKNOWN)]
    [].

(** A scan plugin that scans nothing and whose [check] rejects every
    identifier. *)
Definition rejecting : ScanPlugin := {|
  scan_type := "rejecting";
  sp_can_represent := λ _, Ok false;
  sp_identifiers := λ _ _ _, {| yielded := []; failure := None |};
  sp_check := λ _, Ok NOT_VALID;
|}.

Definition strict : Project := project_of [rejecting] [].

(** The database after the cleanup of [strict] went through the
    identifiers [find] returned. *)
Definition purged (d : Database) : Database :=
  foldl (λ d i, cleanup_step [rejecting] i d) d
        ((take_N default_limit (map_to_list (elements_of d))).*1).

(** The catalog of the identifiers "0", "1", ... below [n]. *)
Definition numbered (n : nat) : gmap string Element :=
  list_to_map ((λ k : nat, (pretty k, untagged (pretty k))) <$> seq 0 n).

(** A catalog with one identifier more than [find] asks for. *)
Definition crowded : World :=
  catalog_of (numbered (S (N.to_nat default_limit))).

(** A project whose [re.compile] rejects the pattern text "([)", an
    unterminated character set. *)
Definition picky : Project := {|
  scanned := no_signal;
  scan_complete := no_signal;
  scan_plugins := [yielding ["a.txt"] None (λ _, Ok UNKNOWN)];
  data_plugins := [file_v1];
  display_name := λ identifier, identifier;
  re_compile := λ text, if String.eqb text "([)" then Raise ReError else Ok ();
|}.

(** Settings with the skip pattern "[". *)
Definition bad_pattern : World :=
  world_of (with_settings_row empty_db
    (Some (Json {[ "skip_regex" := VList ["["] ]}))).


(** * Properties *)

(** ** The built-in file scanner *)

Section FileScannerCheck.

Import FileScanner.
Variable fs : FileSystem.

Lemma check_short identifier :
  (String.length identifier < 2)%nat → check fs identifier = Ok UNKNOWN.
Proof.
  intros Hlen. unfold check.
  destruct (Nat.ltb_spec (String.length identifier) 2) as [_|Hge]; [done|lia].
Qed.

Lemma check_no_colon identifier :
  String.get 1 identifier ≠ Some ":"%char → check fs identifier = Ok UNKNOWN.
Proof.
  intros Hne. unfold check, str_index, ascii_neqb.
  destruct identifier as [|c0 [|c1 r]]; simpl in *; try done.
  by destruct (Ascii.eqb_spec c1 ":"%char) as [->|Hc].
Qed.

Lemma check_drive_only c : check fs (String c ":") = Raise IndexError.
Proof. reflexivity. Qed.

Lemma check_not_valid identifier :
  check fs identifier = Ok NOT_VALID →
  String.get 1 identifier = Some ":"%char
  ∧ (String.get 2 identifier = Some "\"%char
     ∨ String.get 2 identifier = Some "/"%char)
  ∧ path_exists fs identifier = false.
Proof.
  unfold check, str_index, ascii_neqb.
  destruct identifier as [|c0 [|c1 [|c2 r]]]; simpl; try done.
  all: destruct (Ascii.eqb_spec c1 ":"%char) as [->|]; simpl; try done.
  destruct (Ascii.eqb_spec c2 "\"%char) as [E1|];
    destruct (Ascii.eqb_spec c2 "/"%char) as [E2|]; simpl; try done;
    destruct (path_exists fs _); simpl; try done; intros _; subst; eauto.
Qed.

End FileScannerCheck.

(** C10: the file scanner's [check] raises [IndexError] on every identifier
    of length exactly two whose second character is a colon, instead of
    returning a verdict; on every identifier whose second character is not a
    colon (identifiers shorter than two characters included) it returns
    [UNKNOWN]; and it returns [NOT_VALID] only for an identifier that starts
    like a Windows drive path (a colon second, a slash or backslash third)
    and that does not exist. *)
Theorem filescanner_check_not_total (fs : FileScanner.FileSystem) :
  (∀ identifier,
     String.length identifier = 2%nat →
     String.get 1 identifier = Some ":"%char →
     FileScanner.check fs identifier = Raise IndexError)
  ∧ (∀ identifier,
       String.get 1 identifier ≠ Some ":"%char →
       FileScanner.check fs identifier = Ok UNKNOWN)
  ∧ (∀ identifier,
       FileScanner.check fs identifier = Ok NOT_VALID →
       String.get 1 identifier = Some ":"%char
       ∧ (String.get 2 identifier = Some "\"%char
          ∨ String.get 2 identifier = Some "/"%char)).
Proof.
  split; [|split].
  - intros identifier Hlen Hc.
    destruct identifier as [|c0 [|c1 [|c2 r]]]; simpl in *; try done.
    injection Hc as ->. apply check_drive_only.
  - apply check_no_colon.
  - intros identifier H. destruct (check_not_valid fs identifier H) as (?&?&?).
    done.
Qed.

Lemma filescanner_check_not_total_witness :
  FileScanner.check no_files "c:" = Raise IndexError
  ∧ FileScanner.check no_files "readme" = Ok UNKNOWN
  ∧ (String.get 1 "c:/gone" = Some ":"%char
     ∧ (String.get 2 "c:/gone" = Some "\"%char
        ∨ String.get 2 "c:/gone" = Some "/"%char)).
Proof.
  destruct (filescanner_check_not_total no_files) as (H1 & H2 & H3).
  split; [|split].
  - apply H1; reflexivity.
  - apply H2. simpl. discriminate.
  - apply H3. reflexivity.
Defined.

(** ** [Project.get] and the versions of data plugins *)

Section Binding.

Implicit Types (p q : DataPlugin) (l listed : list DataPlugin).

Lemma insert_by_priority_perm p l : insert_by_priority p l ≡ₚ p :: l.
Proof.
  induction l as [|q r IH]; simpl; [done|].
  destruct (priority q <=? priority p)%Z; [done|].
  rewrite IH. apply Permutation_swap.
Qed.

Lemma sorted_by_priority_perm l : sorted_by_priority l ≡ₚ l.
Proof.
  induction l as [|p r IH]; simpl; [done|].
  rewrite insert_by_priority_perm. by rewrite IH.
Qed.

(** What the loop of [Project.get] has bound when it returns: in order, the
    plugins that can represent the identifier. *)
Lemma bind_plugins_Ok identifier l (template r : option Composite) :
  bind_plugins l identifier template = Ok r →
  r = match filter (λ p, represents p identifier = true) l with
      | [] => template
      | bound => Some (default [] template ++ bound)
      end.
Proof.
  revert template. induction l as [|p rest IH]; intros template; simpl.
  - by intros [= <-].
  - rewrite filter_cons.
    destruct (dp_can_represent p identifier) as [[|]|e] eqn:Hable; simpl;
      [| |done].
    + destruct (dp_init p identifier) as [[]|e]; simpl; [|done].
      intros ->%IH. rewrite decide_True by (unfold represents; by rewrite Hable).
      simpl. destruct (filter _ rest); simpl; [done|]. by rewrite <-app_assoc.
    + intros ->%IH.
      by rewrite decide_False by (unfold represents; by rewrite Hable).
Qed.

(** The loop returns when the plugin code it calls does. *)
Lemma bind_plugins_returns identifier l (template : option Composite) :
  (∀ p, p ∈ l →
     ∃ able, dp_can_represent p identifier = Ok able
             ∧ (able = true → dp_init p identifier = Ok ())) →
  ∃ r, bind_plugins l identifier template = Ok r.
Proof.
  revert template. induction l as [|p rest IH]; intros template Hl; simpl.
  - by eexists.
  - destruct (Hl p) as (able & -> & Hinit); [by left|]. simpl.
    destruct able.
    + rewrite Hinit by done. simpl. apply IH. intros q Hq. apply Hl. by right.
    + apply IH. intros q Hq. apply Hl. by right.
Qed.

Lemma get_bound self identifier r :
  get self identifier = Ok r →
  default [] r
  = filter (λ p, represents p identifier = true) (_data_plugins self)
  ∧ (r = None ↔ default [] r = []).
Proof.
  intros ->%bind_plugins_Ok. by destruct (filter _ _).
Qed.

Lemma represents_true p identifier :
  represents p identifier = true ↔ dp_can_represent p identifier = Ok true.
Proof.
  unfold represents. destruct (dp_can_represent p identifier) as [[|]|e];
    naive_solver.
Qed.

Lemma elem_of_get self identifier r p :
  get self identifier = Ok r →
  p ∈ default [] r ↔
  p ∈ data_plugins self ∧ dp_can_represent p identifier = Ok true.
Proof.
  intros [-> _]%get_bound. rewrite list_elem_of_filter. unfold _data_plugins.
  rewrite sorted_by_priority_perm, represents_true. tauto.
Qed.

(** Giving the plugins other versions commutes with the sort and with the
    loop: neither looks at [version]. *)
Lemma insert_by_priority_reversioned (v : DataPlugin → Z) p l :
  insert_by_priority (reversioned v p) (reversioned v <$> l)
  = reversioned v <$> insert_by_priority p l.
Proof.
  induction l as [|q r IH]; [done|]. rewrite fmap_cons. cbn [insert_by_priority].
  change (priority (reversioned v q)) with (priority q).
  change (priority (reversioned v p)) with (priority p).
  destruct (priority q <=? priority p)%Z; [done|].
  by rewrite IH.
Qed.

Lemma sorted_by_priority_reversioned (v : DataPlugin → Z) l :
  sorted_by_priority (reversioned v <$> l)
  = reversioned v <$> sorted_by_priority l.
Proof.
  induction l as [|p r IH]; [done|]. rewrite fmap_cons.
  cbn [sorted_by_priority foldr]. fold (sorted_by_priority r).
  fold (sorted_by_priority (reversioned v <$> r)).
  by rewrite IH, insert_by_priority_reversioned.
Qed.

Lemma bind_plugins_reversioned (v : DataPlugin → Z) identifier l
    (template : option Composite) :
  bind_plugins (reversioned v <$> l) identifier
    (reversioned_composite v template)
  = rbind (bind_plugins l identifier template)
          (λ r, Ok (reversioned_composite v r)).
Proof.
  revert template. induction l as [|p rest IH]; intros template; [done|].
  rewrite fmap_cons. cbn [bind_plugins].
  change (dp_can_represent (reversioned v p)) with (dp_can_represent p).
  change (dp_init (reversioned v p)) with (dp_init p).
  destruct (dp_can_represent p identifier) as [[|]|e]; simpl; [| |done].
  - destruct (dp_init p identifier) as [[]|e]; simpl; [|done].
    rewrite <-IH. do 2 f_equal. unfold Composite in *.
    destruct template; simpl; by rewrite ?fmap_app.
  - apply IH.
Qed.

End Binding.

(** C1, as the code has it: [Project.get] returns when the plugin code it
    calls returns, and the composite it returns holds exactly the plugins of
    the list cached by [__init__] (what the data factory lists, sorted by
    descending priority) that can represent the identifier, in that order;
    it is [None] exactly when there is none.  The versions are never read:
    with any other versions given to the listed plugins, [get] binds the
    same plugins.  So a lower version of a kind takes part whenever it is
    listed and can represent the identifier. *)
Theorem get_binds_listed_plugins (self : Project) (identifier : string) :
  ((∀ p, p ∈ data_plugins self →
      ∃ able, dp_can_represent p identifier = Ok able
              ∧ (able = true → dp_init p identifier = Ok ())) →
   ∃ r, get self identifier = Ok r)
  ∧ (∀ r, get self identifier = Ok r →
       default [] r
       = filter (λ p, represents p identifier = true)
                (sorted_by_priority (data_plugins self))
       ∧ (r = None ↔ default [] r = [])
       ∧ ∀ p, p ∈ default [] r ↔
              p ∈ data_plugins self ∧ dp_can_represent p identifier = Ok true)
  ∧ (∀ v : DataPlugin → Z,
       get (relisted self (reversioned v <$> data_plugins self)) identifier
       = rbind (get self identifier)
               (λ r, Ok (reversioned_composite v r))).
Proof.
  split_and!.
  - intros Hl. apply bind_plugins_returns. intros p Hp. apply Hl.
    unfold _data_plugins in Hp. by rewrite sorted_by_priority_perm in Hp.
  - intros r Hr. destruct (get_bound _ _ _ Hr) as [Hb Hn].
    split_and!; [done..|]. intros p. by apply elem_of_get.
  - intros v. unfold get, _data_plugins. cbn [relisted data_plugins].
    rewrite sorted_by_priority_reversioned.
    apply (bind_plugins_reversioned v identifier _ None).
Qed.

Lemma get_binds_listed_plugins_witness :
  (∃ r, get (listing [file_v1; file_v2]) "/v2/a.txt" = Ok r)
  ∧ (file_v1 ∈ default [] (Some [file_v1; file_v2]) ↔
     file_v1 ∈ data_plugins (listing [file_v1; file_v2])
     ∧ dp_can_represent file_v1 "/v2/a.txt" = Ok true).
Proof.
  destruct (get_binds_listed_plugins (listing [file_v1; file_v2]) "/v2/a.txt")
    as (H1 & H2 & _).
  split.
  - apply H1. intros p Hp. cbn [listing data_plugins] in Hp.
    apply elem_of_cons in Hp as [->|Hp]; [by eexists|].
    apply list_elem_of_singleton in Hp as ->. by eexists.
  - destruct (H2 (Some [file_v1; file_v2]) eq_refl) as (_ & _ & H3). apply H3.
Defined.

(** C1 as stated fails, whatever the factory lists.  Of the two versions of
    "file", version 1 represents every identifier and version 2 those under
    "/v2/" only, so the highest version among the plugins that can represent
    the identifier is 2 for "/v2/a.txt" and 1 for "/v1/a.txt".  When the
    factory lists both classes, [get] binds both for "/v2/a.txt"; when it
    lists version 2 only, [get] binds nothing for "/v1/a.txt"; and no list
    makes [get] return the specification's binding for both identifiers. *)
Lemma get_highest_representing_counterexample :
  spec_bind [file_v1; file_v2] "/v2/a.txt" = Some [file_v2]
  ∧ spec_bind [file_v1; file_v2] "/v1/a.txt" = Some [file_v1]
  ∧ get (listing [file_v1; file_v2]) "/v2/a.txt" = Ok (Some [file_v1; file_v2])
  ∧ get (listing [file_v2]) "/v1/a.txt" = Ok None
  ∧ ∀ listed,
      ¬ (get (listing listed) "/v1/a.txt"
         = Ok (spec_bind [file_v1; file_v2] "/v1/a.txt")
         ∧ get (listing listed) "/v2/a.txt"
           = Ok (spec_bind [file_v1; file_v2] "/v2/a.txt")).
Proof.
  split_and!; [reflexivity..|]. intros listed [H1 H2].
  change (spec_bind _ "/v1/a.txt") with (Some [file_v1]) in H1.
  change (spec_bind _ "/v2/a.txt") with (Some [file_v2]) in H2.
  assert (file_v1 ∈ default [] (Some [file_v1])) as Hin by (simpl; by left).
  apply (elem_of_get _ _ _ _ H1) in Hin as [Hl _].
  assert (file_v1 ∈ default [] (Some [file_v2])) as Hin.
  { apply (elem_of_get _ _ _ _ H2). split; [done|reflexivity]. }
  simpl in Hin. apply list_elem_of_singleton in Hin.
  by apply (f_equal version) in Hin.
Qed.

(** ** Tags *)

(** A loop whose body is a statement never raises; the database goes
    through the statements in order. *)
Lemma for_each_execute {A} (l : list A) (command : A → Database → Database) w :
  for_each l (λ x, execute (command x)) w
  = (Ok (), {| db := foldl (λ d x, command x d) (db w) l;
               emitted := emitted w |}).
Proof.
  revert w. induction l as [|x r IH]; intros w; simpl.
  - by destruct w.
  - unfold bindM, execute at 1. rewrite IH. reflexivity.
Qed.

Lemma tags_add_twice identifier t d :
  Sql.tags_add identifier t (Sql.tags_add identifier t d)
  = Sql.tags_add identifier t d.
Proof.
  unfold Sql.tags_add, Sql.tag_connect, Sql.tag_insert, with_tag_rows,
    with_elements. simpl.
  rewrite !bool_decide_eq_true_2 by set_solver. simpl. f_equal.
  - apply map_eq. intros i. rewrite !lookup_alter.
    case_decide; [|done]. rewrite decide_True by done.
    destruct (elements_of d !! identifier) as [[n ts]|]; [|done].
    simpl. unfold add_tag. simpl. do 2 f_equal. set_solver.
  - set_solver.
Qed.

(** Tagging with the same single tag again changes nothing and does not
    raise. *)
Lemma tag_twice identifier t w :
  tag identifier (AStr t) w = (Ok (), snd (tag identifier (AStr t) w))
  ∧ tag identifier (AStr t) (snd (tag identifier (AStr t) w))
    = tag identifier (AStr t) w.
Proof.
  unfold tag. simpl. unfold bindM, execute, mret. simpl.
  split; [done|]. by rewrite tags_add_twice.
Qed.

(** [untag] with the tag as [tag] stored it, in lowercase, removes it. *)
Lemma untag_lowercase identifier t w e :
  elements_of (db w) !! identifier = Some e →
  (do_ tag identifier (AStr t); do_ untag identifier (AStr (lower t));
   tags identifier) w
  = (Ok (elements (el_tags e ∖ {[lower t]})),
     snd ((do_ tag identifier (AStr t);
           untag identifier (AStr (lower t))) w)).
Proof.
  intros He. unfold tag, untag, tags. simpl.
  unfold bindM, execute, mret, fetch. simpl. f_equal.
  unfold Sql.tags_get, Sql.tags_rem, Sql.tags_add, Sql.tag_connect. simpl.
  rewrite bool_decide_eq_true_2 by set_solver. simpl.
  rewrite !lookup_alter, !decide_True, He by done. simpl.
  do 2 f_equal. set_solver.
Qed.

(** C5 fails on the code: [tag] stores the tag in lowercase, [untag] looks
    for the tag as given.  Tagging "a.txt" with "Carnivore" and then
    untagging "Carnivore" leaves "carnivore" assigned. *)
Theorem untag_mixed_case_keeps_tag :
  fst ((do_ tag "a.txt" (AStr "Carnivore");
        do_ untag "a.txt" (AStr "Carnivore");
        tags "a.txt") one_element)
  = Ok ["carnivore"].
Proof. vm_compute. reflexivity. Qed.

(** ** Settings *)

Lemma settings_None w :
  settings_row (db w) = None → settings w = (Ok ∅, w).
Proof.
  intros H. unfold settings, bindM, fetch, except_IndexError, Sql.settings_get.
  rewrite H. reflexivity.
Qed.

Lemma settings_Json w s :
  settings_row (db w) = Some (Json s) → settings w = (Ok s, w).
Proof.
  intros H. unfold settings, bindM, fetch, except_IndexError, Sql.settings_get.
  rewrite H. reflexivity.
Qed.

Lemma settings_Malformed w raw :
  settings_row (db w) = Some (Malformed raw) →
  settings w = (Raise ValueError, w).
Proof.
  intros H. unfold settings, bindM, fetch, except_IndexError, Sql.settings_get.
  rewrite H. reflexivity.
Qed.

(** C7, as the code has it: [Project.settings] returns the empty dictionary
    when no settings blob is stored; when the stored blob is not valid
    JSON, the [ValueError] of [json.loads] propagates, the handler catching
    [IndexError] only. *)
Theorem settings_empty_when_none_stored (w : World) :
  (settings_row (db w) = None → settings w = (Ok ∅, w))
  ∧ (∀ raw, settings_row (db w) = Some (Malformed raw) →
            settings w = (Raise ValueError, w)).
Proof. split; [apply settings_None|intros raw; apply settings_Malformed]. Qed.

Lemma settings_empty_when_none_stored_witness :
  settings (world_of empty_db) = (Ok ∅, world_of empty_db)
  ∧ settings malformed_settings = (Raise ValueError, malformed_settings).
Proof.
  split.
  - apply (settings_empty_when_none_stored (world_of empty_db)). reflexivity.
  - apply (settings_empty_when_none_stored malformed_settings) with (raw := "{").
    reflexivity.
Defined.

(** C7 as stated fails: with the malformed blob "{" stored, [settings]
    raises and returns no dictionary. *)
Lemma settings_malformed_counterexample :
  fst (settings malformed_settings) = Raise ValueError
  ∧ fst (settings malformed_settings) ≠ Ok ∅.
Proof. split; [reflexivity|discriminate]. Qed.

Section RemoveFromSetting.

Variables (key : string) (w : World) (s : gmap string SettingValue).
Hypothesis stored : settings_row (db w) = Some (Json s).

Lemma remove_from_setting_present l item :
  s !! key = Some (VList l) → item ∈ l →
  remove_from_setting key item w = (Ok (), after_remove key w s).
Proof.
  intros Hk Hin. unfold remove_from_setting, bindM.
  rewrite (settings_Json _ _ stored). unfold lift, get_or_list. rewrite Hk.
  simpl. rewrite bool_decide_eq_true_2 by done. reflexivity.
Qed.

Lemma remove_from_setting_absent l item :
  s !! key = Some (VList l) → item ∉ l →
  remove_from_setting key item w = (Raise ValueError, w).
Proof.
  intros Hk Hin. unfold remove_from_setting, bindM.
  rewrite (settings_Json _ _ stored). unfold lift, get_or_list. rewrite Hk.
  simpl. rewrite bool_decide_eq_false_2 by done. reflexivity.
Qed.

Lemma read_after_remove :
  (do s' <- settings; mret (get_or_list s' key)) (after_remove key w s)
  = (Ok VNone, after_remove key w s).
Proof.
  unfold bindM. rewrite (settings_Json _ (<[key := VNone]> s)) by done.
  unfold mret, get_or_list. by rewrite lookup_insert_eq.
Qed.

End RemoveFromSetting.

(** C9, as the code has it: when the stored settings hold a list under the
    key and the given entry is in that list, [remove_scan_location] (and
    likewise [remove_skip_regex] and [remove_plugin_location]) stores [None],
    the return value of [list.remove], as the key's value, and the following
    [scan_locations()] / [skip_regexes()] / [plugin_locations()] returns
    [None]; when the entry is not in the list, [list.remove] raises
    [ValueError] and the settings stay as they were. *)
Theorem remove_stores_None (w : World) (s : gmap string SettingValue)
    (l : list string) (item : string) :
  settings_row (db w) = Some (Json s) →
  (s !! "scan_locations" = Some (VList l) →
     (item ∈ l → ∃ w', remove_scan_location item w = (Ok (), w')
                        ∧ scan_locations w' = (Ok VNone, w'))
     ∧ (item ∉ l → remove_scan_location item w = (Raise ValueError, w)))
  ∧ (s !! "skip_regex" = Some (VList l) →
     (item ∈ l → ∃ w', remove_skip_regex item w = (Ok (), w')
                        ∧ skip_regexes w' = (Ok VNone, w'))
     ∧ (item ∉ l → remove_skip_regex item w = (Raise ValueError, w)))
  ∧ (s !! "plugin_locations" = Some (VList l) →
     (item ∈ l → ∃ w', remove_plugin_location item w = (Ok (), w')
                        ∧ plugin_locations w' = (Ok VNone, w'))
     ∧ (item ∉ l → remove_plugin_location item w = (Raise ValueError, w))).
Proof.
  intros Hs. split_and!; intros Hk; (split; [intros Hin|intros Hout]).
  1,3,5: eexists; split;
    [by eapply remove_from_setting_present|by apply read_after_remove].
  all: by eapply remove_from_setting_absent.
Qed.

Lemma remove_stores_None_witness :
  (∃ w', remove_scan_location "/data" one_location = (Ok (), w')
         ∧ scan_locations w' = (Ok VNone, w'))
  ∧ remove_scan_location "/other" one_location
    = (Raise ValueError, one_location).
Proof.
  destruct (remove_stores_None one_location
              {[ "scan_locations" := VList ["/data"];
                 "skip_regex" := VList ["tmp"];
                 "plugin_locations" := VList ["/plugins"] ]}
              ["/data"] "/data" eq_refl) as (H1 & _ & _).
  destruct (remove_stores_None one_location
              {[ "scan_locations" := VList ["/data"];
                 "skip_regex" := VList ["tmp"];
                 "plugin_locations" := VList ["/plugins"] ]}
              ["/data"] "/other" eq_refl) as (H2 & _ & _).
  split.
  - apply H1; [reflexivity|]. by left.
  - apply H2; [reflexivity|]. by intros [?|?%elem_of_nil]%elem_of_cons.
Defined.

(** C9 as stated fails for an entry that is not in the stored list: the
    stored list ["/data"] is not empty, yet [remove_scan_location("/other")]
    raises [ValueError] before anything is stored, and [scan_locations()]
    still returns the list. *)
Lemma remove_absent_location_counterexample :
  remove_scan_location "/other" one_location = (Raise ValueError, one_location)
  ∧ scan_locations one_location = (Ok (VList ["/data"]), one_location).
Proof. split; reflexivity. Qed.

(** ** [Project.find] *)

Lemma holds_tag_or c ts assigned :
  Sql.holds_tag (foldl COr c (TagEq <$> ts)) assigned
  = Sql.holds_tag c assigned || existsb (String.eqb assigned) ts.
Proof.
  revert c. induction ts as [|t r IH]; intros c; simpl.
  - by rewrite orb_false_r.
  - rewrite IH. simpl. by rewrite orb_assoc.
Qed.

Lemma holds_identifier_and c ts identifier name :
  Sql.holds_text (foldl CAnd c (IdentifierLike <$> ts)) identifier name
  = Sql.holds_text c identifier name && forallb (contains identifier) ts.
Proof.
  revert c. induction ts as [|t r IH]; intros c; simpl.
  - by rewrite andb_true_r.
  - rewrite IH. simpl. by rewrite andb_assoc.
Qed.

Lemma holds_name_and c ts identifier name :
  Sql.holds_text (foldl CAnd c (NameLike <$> ts)) identifier name
  = Sql.holds_text c identifier name && forallb (contains name) ts.
Proof.
  revert c. induction ts as [|t r IH]; intros c; simpl.
  - by rewrite andb_true_r.
  - rewrite IH. simpl. by rewrite andb_assoc.
Qed.

Lemma matches_spec t ts entry :
  Sql.matches (foldl COr (TagEq t) (TagEq <$> ts))
              (foldl CAnd (IdentifierLike t) (IdentifierLike <$> ts))
              (foldl CAnd (NameLike t) (NameLike <$> ts)) entry
  = spec_matches (t :: ts) entry.
Proof.
  unfold Sql.matches, spec_matches.
  rewrite holds_identifier_and, holds_name_and. simpl. f_equal.
  induction (elements (el_tags entry.2)) as [|a r IH]; [done|].
  simpl. by rewrite holds_tag_or, IH.
Qed.

Lemma rows_identifiers (l : list (string * Element)) :
  map_result (λ row, list_index row 1) (Sql.row <$> l) = Ok (l.*1).
Proof.
  induction l as [|x r IH]; [done|].
  rewrite !fmap_cons. cbn [map_result]. rewrite IH. reflexivity.
Qed.

(** For a non-empty tag list, [find] returns the identifiers of the entries
    that satisfy the two-sided predicate, up to the limit. *)
Lemma find_tags t ts limit w :
  find (AList (t :: ts)) limit w
  = (Ok ((take_N (effective_limit limit)
            (filter (λ entry, spec_matches (t :: ts) entry = true)
                    (map_to_list (elements_of (db w))))).*1), w).
Proof.
  unfold find, bindM, fetch, lift, Sql.find.
  rewrite rows_identifiers. do 4 f_equal.
  apply list_filter_iff. intros entry. by rewrite matches_spec.
Qed.

(** [find(None)] returns the identifiers up to the limit. *)
Lemma find_None limit w :
  find ANone limit w
  = (Ok ((take_N (effective_limit limit)
            (map_to_list (elements_of (db w)))).*1), w).
Proof.
  unfold find, bindM, fetch, lift, Sql.find_all.
  by rewrite rows_identifiers.
Qed.

(** C4 fails on the code for the wildcard: [find] has no case for "*", which
    is looked up like any other tag.  On a catalog holding the untagged
    identifier "a.txt", [find(None)] returns it and [find("*")] returns
    nothing. *)
Theorem find_star_is_not_a_wildcard :
  fst (find ANone None one_element) = Ok ["a.txt"]
  ∧ fst (find (AStr "*") None one_element) = Ok [].
Proof. split; vm_compute; reflexivity. Qed.

(** ** The discovery phase of [Project.scan] *)

Section Discovery.

Variable self : Project.

Lemma Raise_Ok {A} e (a : A) : Raise e = Ok a → False.
Proof. done. Qed.

Lemma found_nil w : found self [] w = w.
Proof. destruct w. unfold found. simpl. by rewrite app_nil_r. Qed.

Lemma found_app P Q w : found self (P ++ Q) w = found self Q (found self P w).
Proof.
  unfold found, added. simpl. by rewrite foldl_app, fmap_app, app_assoc.
Qed.

Lemma tracks_ret {A} (a : A) : tracks self (mret a) (Ok a) [].
Proof. intros w. by rewrite found_nil. Qed.

Lemma tracks_lift {A} (r : Result A) : tracks self (lift r) r [].
Proof. intros w. by rewrite found_nil. Qed.

Lemma tracks_raise {A} e : tracks self (@mraise A e) (Raise e) [].
Proof. intros w. by rewrite found_nil. Qed.

Lemma tracks_bind {A B} (m : M A) (k : A → M B) a P r Q :
  tracks self m (Ok a) P → tracks self (k a) r Q →
  tracks self (bindM m k) r (P ++ Q).
Proof.
  intros Hm Hk w. unfold bindM. by rewrite Hm, Hk, found_app.
Qed.

Lemma tracks_bind_raise {A B} (m : M A) (k : A → M B) e P :
  tracks self m (Raise e) P → tracks self (bindM m k) (Raise e) P.
Proof. intros Hm w. unfold bindM. by rewrite Hm. Qed.

Lemma scan_identifiers_tracks identifiers failure :
  ∃ r P,
    tracks self (scan_identifiers self identifiers failure) r P
    ∧ (∀ f, r = Ok f → f = identifiers ∧ P = identifiers)
    ∧ (failure = None → quiet (scanned self) → r = Ok identifiers).
Proof.
  induction identifiers as [|identifier rest (r & P & Ht & Hok & Hret)].
  - destruct failure as [e|]; simpl.
    + exists (Raise e), []. split_and!; [apply tracks_raise|done..].
    + exists (Ok []), []. split_and!; [apply tracks_ret| |done].
      by intros f [= <-].
  - assert (∀ w, found self [identifier] w
                 = {| db := Sql.add identifier (display_name self identifier)
                              (db w);
                      emitted := emitted w ++ [EvScanned identifier] |})
      as Hone by done.
    destruct (emit (scanned self) [identifier]) as [[]|e] eqn:Hemit.
    + destruct r as [f|e].
      * exists (Ok (identifier :: f)), ([identifier] ++ P).
        destruct (Hok f eq_refl) as [-> ->]. split_and!.
        -- intros w. cbn [scan_identifiers].
           unfold bindM, add, execute, signal, mret. cbn.
           rewrite Hemit, <-Hone, Ht. by rewrite <-found_app.
        -- by intros ? [= <-].
        -- done.
      * exists (Raise e), ([identifier] ++ P). split_and!.
        -- intros w. cbn [scan_identifiers].
           unfold bindM, add, execute, signal, mret. cbn.
           rewrite Hemit, <-Hone, Ht. by rewrite <-found_app.
        -- done.
        -- intros Hf Hq. by specialize (Hret Hf Hq).
    + exists (Raise e), [identifier]. split_and!.
      * intros w. cbn [scan_identifiers].
        unfold bindM, add, execute, signal, mret. cbn.
        by rewrite Hemit, <-Hone.
      * done.
      * intros _ Hq. by rewrite Hq in Hemit.
Qed.

Lemma scan_location_tracks plugins location skip_regex recursive :
  ∃ r P,
    tracks self (scan_location self plugins location skip_regex recursive) r P
    ∧ (∀ f, r = Ok f →
         f = P
         ∧ P = concat ((λ p, yields p location skip_regex recursive) <$> plugins))
    ∧ ((∀ p, p ∈ plugins →
          ∃ able, sp_can_represent p location = Ok able
                  ∧ (able = true →
                     failure (sp_identifiers p location skip_regex recursive)
                     = None)) →
       quiet (scanned self) →
       r = Ok (concat ((λ p, yields p location skip_regex recursive)
                       <$> plugins))).
Proof.
  induction plugins as [|p rest (r & P & Ht & Hok & Hret)].
  - exists (Ok []), []. split_and!; [apply tracks_ret| |done].
    by intros f [= <-].
  - rewrite fmap_cons. cbn [concat]. unfold yields at 1 3.
    destruct (sp_can_represent p location) as [[|]|e] eqn:Hable.
    + destruct (scan_identifiers_tracks
                  (yielded (sp_identifiers p location skip_regex recursive))
                  (failure (sp_identifiers p location skip_regex recursive)))
        as (r1 & P1 & Ht1 & Hok1 & Hret1).
      destruct r1 as [f1|e1].
      * destruct (Hok1 f1 eq_refl) as [-> ->].
        destruct r as [f|e].
        -- destruct (Hok f eq_refl) as [-> HP].
           eexists (Ok (_ ++ P)), (_ ++ P). split_and!.
           ++ intros w. cbn [scan_location]. unfold bindM, lift, mret.
              rewrite Hable. cbn. by rewrite Ht1, Ht, <-found_app.
           ++ intros ? [= <-]. by rewrite <-HP.
           ++ intros _ _. by rewrite <-HP.
        -- eexists (Raise e), (_ ++ P). split_and!.
           ++ intros w. cbn [scan_location]. unfold bindM, lift, mret.
              rewrite Hable. cbn. by rewrite Ht1, Ht, <-found_app.
           ++ done.
           ++ intros Hall Hq. exfalso. eapply Raise_Ok, Hret; [|done].
              intros q Hq'. apply Hall. by right.
      * exists (Raise e1), P1. split_and!.
        -- intros w. cbn [scan_location]. unfold bindM, lift, mret.
           rewrite Hable. cbn. by rewrite Ht1.
        -- done.
        -- intros Hall Hq. exfalso. eapply Raise_Ok, Hret1; [|done].
           destruct (Hall p) as (able & Ha & Hf); [by left|].
           apply Hf. congruence.
    + exists r, P. split_and!.
      * intros w. cbn [scan_location]. unfold bindM, lift, mret.
        rewrite Hable. cbn. rewrite Ht. by destruct r.
      * done.
      * intros Hall Hq. apply Hret; [|done]. intros q Hq'. apply Hall.
        by right.
    + exists (Raise e), []. split_and!.
      * intros w. cbn [scan_location]. unfold bindM, lift, mret.
        rewrite Hable. by rewrite found_nil.
      * done.
      * intros Hall _. destruct (Hall p) as (able & Ha & _); [by left|].
        congruence.
Qed.

Lemma discover_tracks locations skip_regex recursive :
  ∃ r P,
    tracks self (discover self locations skip_regex recursive) r P
    ∧ (∀ f, r = Ok f →
         f = P
         ∧ P = discovered (scan_plugins self) locations skip_regex recursive)
    ∧ (sources_return (scan_plugins self) locations skip_regex recursive →
       quiet (scanned self) →
       r = Ok (discovered (scan_plugins self) locations skip_regex recursive)).
Proof.
  unfold discovered.
  induction locations as [|location rest (r & P & Ht & Hok & Hret)].
  - exists (Ok []), []. split_and!; [apply tracks_ret| |done].
    by intros f [= <-].
  - rewrite fmap_cons. cbn [concat].
    destruct (scan_location_tracks (scan_plugins self) location skip_regex
                recursive) as (r1 & P1 & Ht1 & Hok1 & Hret1).
    assert (sources_return (scan_plugins self) (location :: rest) skip_regex
              recursive →
            sources_return (scan_plugins self) rest skip_regex recursive)
      as Hrest.
    { intros Hall l p Hl Hp. apply Hall; [by right|done]. }
    destruct r1 as [f1|e1].
    + destruct (Hok1 f1 eq_refl) as [-> HP1]. destruct r as [f|e].
      * destruct (Hok f eq_refl) as [-> HP].
        exists (Ok (P1 ++ P)), (P1 ++ P). split_and!.
        -- intros w. cbn [discover]. unfold bindM, mret.
           by rewrite Ht1, Ht, <-found_app.
        -- intros ? [= <-]. by rewrite <-HP, <-HP1.
        -- intros _ _. by rewrite <-HP, <-HP1.
      * exists (Raise e), (P1 ++ P). split_and!.
        -- intros w. cbn [discover]. unfold bindM, mret.
           by rewrite Ht1, Ht, <-found_app.
        -- done.
        -- intros Hall Hq. exfalso. eapply Raise_Ok, Hret; [by apply Hrest|done].
    + exists (Raise e1), P1. split_and!.
      * intros w. cbn [discover]. unfold bindM, mret. by rewrite Ht1.
      * done.
      * intros Hall Hq. exfalso. eapply Raise_Ok, Hret1; [|done].
        intros p Hp. apply Hall; [by left|done].
Qed.

End Discovery.

(** ** Emissions *)

Lemma silent_ret {A} (a : A) : silent (mret a).
Proof. done. Qed.

Lemma silent_lift {A} (r : Result A) : silent (lift r).
Proof. done. Qed.

Lemma silent_execute command : silent (execute command).
Proof. done. Qed.

Lemma silent_fetch {A} (query : Database → A) : silent (fetch query).
Proof. done. Qed.

Lemma silent_bind {A B} (m : M A) (k : A → M B) :
  silent m → (∀ a, silent (k a)) → silent (bindM m k).
Proof.
  intros Hm Hk w. unfold bindM. specialize (Hm w).
  destruct (m w) as [[a|e] w1]; simpl in *; [|done]. by rewrite Hk.
Qed.

Lemma silent_for_each {A} (l : list A) (body : A → M unit) :
  (∀ x, silent (body x)) → silent (for_each l body).
Proof.
  intros Hb. induction l as [|x r IH]; [done|].
  simpl. apply silent_bind; [apply Hb|done].
Qed.

Lemma silent_find tags limit : silent (find tags limit).
Proof.
  unfold find. apply silent_bind; [|intros; apply silent_lift].
  destruct tags as [|[|??]|[|??]|[|??]]; apply silent_fetch.
Qed.

Lemma silent_check_identifier plugins identifier :
  silent (check_identifier plugins identifier).
Proof.
  induction plugins as [|p r IH]; [done|]. simpl.
  apply silent_bind; [apply silent_lift|]. intros verdict.
  case_decide; [apply silent_execute|done].
Qed.

Lemma silent_cleanup self : silent (cleanup self).
Proof.
  apply silent_bind; [apply silent_find|]. intros identifiers.
  apply silent_for_each. intros. apply silent_check_identifier.
Qed.

Lemma silent_full_scan self scanned_identifiers :
  silent (full_scan self scanned_identifiers).
Proof.
  unfold full_scan. apply silent_bind; [apply silent_lift|].
  intros [all_tags mapped_tags].
  apply silent_bind; [apply silent_for_each; intros; apply silent_execute|].
  intros _. apply silent_bind; [|intros _; apply silent_cleanup].
  apply silent_for_each. intros [i ts]. apply silent_for_each.
  intros. apply silent_execute.
Qed.

(** ** [Project.scan] as a whole *)

Lemma settings_pure w : snd (settings w) = w.
Proof.
  unfold settings, bindM, fetch, except_IndexError, Sql.settings_get.
  by destruct (settings_row (db w)) as [[?|?]|].
Qed.

Lemma settings_found self P w :
  fst (settings (found self P w)) = fst (settings w).
Proof.
  assert (settings_row (db (found self P w)) = settings_row (db w)) as E.
  { unfold found, added. simpl. revert w.
    induction P as [|i r IH]; intros w; [done|].
    simpl. specialize (IH {| db := Sql.add i (display_name self i) (db w);
                             emitted := emitted w |}).
    simpl in IH. rewrite IH. unfold Sql.add.
    by destruct (elements_of (db w) !! i). }
  unfold settings, bindM, fetch, except_IndexError, Sql.settings_get.
  rewrite E. by destruct (settings_row (db w)) as [[?|?]|].
Qed.

Lemma settings_fst w r : fst (settings w) = r → settings w = (r, w).
Proof.
  intros <-. pose proof (settings_pure w) as Hw.
  destruct (settings w) as [r w']. simpl in *. congruence.
Qed.

Lemma compile_skip_Ok self patterns skip_regex :
  compile_skip self patterns = Ok skip_regex → skip_regex = skip_of patterns.
Proof.
  unfold compile_skip. destruct (skip_of patterns) as [stored|].
  - destruct (re_compile self _) as [[]|e]; simpl; [|done]. by intros [= <-].
  - by intros [= <-].
Qed.

Lemma prelude_loads self locations w s :
  prelude self locations w = Ok s ↔ loads self locations w s.
Proof.
  unfold prelude, loads. split.
  - destruct (format_s locations) as [[]|e]; simpl; [|done].
    destruct (fst (settings w)) as [s'|e]; simpl; [|done].
    destruct (compile_skip self _) as [skip_regex|e] eqn:Hc; simpl; [|done].
    intros [= ->]. split_and!; [done..|].
    by rewrite (compile_skip_Ok _ _ _ Hc) in Hc.
  - intros (Hf & Hs & Hc). rewrite Hf. simpl. rewrite Hs. simpl. by rewrite Hc.
Qed.

(** The scan after its log line, its settings and its skip pattern. *)
Lemma scan_unfold self locations recursive full w s :
  loads self locations w s →
  scan self locations recursive full w
  = (do scanned_identifiers <-
       discover self (locations_of locations s)
         (skip_of (get_or_list s "skip_regex")) recursive;
     do_ (if full then full_scan self scanned_identifiers else mret ());
     do_ signal EvScanComplete (scan_complete self) [];
     mret scanned_identifiers) w.
Proof.
  intros (Hf & Hs%settings_fst & Hc).
  unfold scan, skip_regexes, scan_locations, locations_of.
  unfold bindM at 1. unfold lift at 1. rewrite Hf. cbv beta iota.
  unfold bindM at 1 2. rewrite Hs. unfold mret at 1. cbv beta iota.
  unfold bindM at 1. unfold lift at 1. rewrite Hc. cbv beta iota.
  destruct locations as [|[|??]|[|??]|[|??]]; try done.
  all: unfold bindM at 1 2 3; by rewrite Hs.
Qed.

(** A scan that does not get as far as the discovery raises and leaves
    everything as it was. *)
Lemma scan_prelude_raise self locations recursive full w e :
  prelude self locations w = Raise e →
  scan self locations recursive full w = (Raise e, w).
Proof.
  unfold prelude, scan, skip_regexes. unfold bindM at 1. unfold lift at 1.
  destruct (format_s locations) as [[]|e1]; cbn [rbind]; [|by intros [= ->]].
  unfold bindM at 1 2.
  destruct (fst (settings w)) as [s|e2] eqn:Hs; apply settings_fst in Hs;
    rewrite Hs; cbn [rbind]; [|by intros [= ->]].
  unfold mret at 1. cbv beta iota. unfold bindM at 1. unfold lift at 1.
  destruct (compile_skip self _) as [skip_regex|e3]; cbn [rbind]; [done|].
  by intros [= ->].
Qed.


(** What follows the discovery. *)
Lemma scan_tail (self : Project) (full : bool) (D : list string) (w1 : World) :
  (do_ (if full then full_scan self D else mret ());
   do_ signal EvScanComplete (scan_complete self) [];
   mret D) w1
  = match (if full then full_scan self D else mret ()) w1 with
    | (Ok _, w2) =>
        (rbind (emit (scan_complete self) []) (λ _, Ok D),
         {| db := db w2; emitted := emitted w2 ++ [EvScanComplete] |})
    | (Raise e, w2) => (Raise e, w2)
    end.
Proof.
  unfold bindM at 1.
  destruct ((if full then full_scan self D else mret ()) w1)
    as [[[]|e] w2]; [|done].
  unfold bindM, signal, mret.
  by destruct (emit (scan_complete self) []) as [[]|e].
Qed.

(** The scan, once the settings are read and the discovery has returned. *)
Lemma scan_discovered (self : Project) locations recursive (full : bool) w s
    (D : list string) :
  loads self locations w s →
  tracks self
    (discover self (locations_of locations s)
       (skip_of (get_or_list s "skip_regex")) recursive) (Ok D) D →
  scan self locations recursive full w
  = match (if full then full_scan self D else mret ()) (found self D w) with
    | (Ok _, w2) =>
        (rbind (emit (scan_complete self) []) (λ _, Ok D),
         {| db := db w2; emitted := emitted w2 ++ [EvScanComplete] |})
    | (Raise e, w2) => (Raise e, w2)
    end.
Proof.
  intros Hs Ht. rewrite (scan_unfold _ _ _ _ _ _ Hs).
  unfold bindM at 1. rewrite Ht. apply scan_tail.
Qed.

(** C8, as the code has it: when the scan gets as far as the discovery (the
    log line formats the locations, the settings load and the stored skip
    patterns compile), the discovery sources return and no subscriber of
    [scanned] raises, one invocation of [Project.scan] emits [scanned] once
    for every identifier yielded, in discovery order, an identifier yielded
    several times (by several plugins or from several locations) being
    announced each time; nothing else is emitted but the closing
    [scan_complete]. *)
Theorem scan_announces_every_yield (self : Project) (locations : PyArg)
    (recursive full : bool) (w : World) (s : gmap string SettingValue) :
  loads self locations w s →
  sources_return (scan_plugins self) (locations_of locations s)
    (skip_of (get_or_list s "skip_regex")) recursive →
  quiet (scanned self) →
  ∃ rest,
    emitted (snd (scan self locations recursive full w))
    = emitted w
      ++ (EvScanned <$> discovered (scan_plugins self)
                          (locations_of locations s)
                          (skip_of (get_or_list s "skip_regex")) recursive)
      ++ rest
    ∧ (rest = [] ∨ rest = [EvScanComplete]).
Proof.
  intros Hs Hsrc Hq.
  destruct (discover_tracks self (locations_of locations s)
              (skip_of (get_or_list s "skip_regex")) recursive)
    as (r & P & Ht & Hok & Hret).
  specialize (Hret Hsrc Hq). subst r. destruct (Hok _ eq_refl) as [<- _].
  set (D := discovered _ _ _ _) in *.
  rewrite (scan_discovered _ _ _ _ _ _ D Hs Ht).
  set (phase := if full then _ else _).
  assert (silent phase) as Hsilent.
  { subst phase. destruct full; [apply silent_full_scan|apply silent_ret]. }
  specialize (Hsilent (found self D w)).
  destruct (phase _) as [[[]|e] w2]; simpl in Hsilent.
  - exists [EvScanComplete]. split; [|by right].
    simpl. by rewrite Hsilent, <-app_assoc.
  - exists []. split; [|by left]. simpl. by rewrite Hsilent, app_nil_r.
Qed.

Lemma scan_announces_every_yield_witness :
  ∃ rest,
    emitted (snd (scan two_sources (AStr "/data") true true (world_of empty_db)))
    = [] ++ (EvScanned <$> ["a.txt"; "a.txt"; "b.txt"]) ++ rest
    ∧ (rest = [] ∨ rest = [EvScanComplete]).
Proof.
  apply (scan_announces_every_yield two_sources (AStr "/data") true true
           (world_of empty_db) ∅).
  - by split_and!.
  - intros location p _ Hp. exists true.
    simpl in Hp. apply elem_of_cons in Hp as [->|Hp]; [done|].
    apply elem_of_cons in Hp as [->|Hp]; [done|]. by apply elem_of_nil in Hp.
  - intros args. reflexivity.
Defined.

(** C8 as stated fails: with two plugins that both yield "a.txt" for the
    location, one scan emits [scanned] for "a.txt" twice. *)
Lemma scanned_twice_counterexample :
  emitted (snd (scan two_sources (AStr "/data") true true (world_of empty_db)))
  = [EvScanned "a.txt"; EvScanned "a.txt"; EvScanned "b.txt"; EvScanComplete].
Proof. vm_compute. reflexivity. Qed.


(** ** The cleanup of a full scan *)

Lemma db_eq (d1 d2 : Database) :
  elements_of d1 = elements_of d2 → tag_rows d1 = tag_rows d2 →
  settings_row d1 = settings_row d2 → d1 = d2.
Proof. destruct d1, d2. simpl. by intros -> -> ->. Qed.

Lemma take_N_all {A} (n : N) (l : list A) :
  (N.of_nat (length l) ≤ n)%N → take_N n l = l.
Proof.
  revert n. induction l as [|x r IH]; intros n Hn; [done|].
  simpl in *. destruct (N.eqb_spec n 0) as [->|Hne]; [lia|].
  f_equal. apply IH. lia.
Qed.

(** A loop whose body amounts to a statement. *)
Lemma for_each_commands {A} (l : list A) (body : A → M unit)
    (command : A → Database → Database) w :
  (∀ x w, x ∈ l → body x w = execute (command x) w) →
  for_each l body w
  = (Ok (), {| db := foldl (λ d x, command x d) (db w) l;
               emitted := emitted w |}).
Proof.
  revert w. induction l as [|x r IH]; intros w Hb; simpl.
  - by destruct w.
  - unfold bindM. rewrite Hb by (by left). unfold execute at 1.
    rewrite IH; [done|]. intros y w' Hy. apply Hb. by right.
Qed.

Lemma condemnedb_true plugins identifier :
  condemnedb plugins identifier = true ↔ condemned plugins identifier.
Proof.
  unfold condemnedb, condemned. rewrite existsb_exists. split.
  - intros (p & Hp%list_elem_of_In & Hv). exists p. split; [done|].
    unfold not_valid in Hv. by destruct (sp_check p identifier) as [[]|].
  - intros (p & Hp & Hv). exists p. split; [by apply list_elem_of_In|].
    unfold not_valid. by rewrite Hv.
Qed.

Lemma check_identifier_spec plugins identifier w :
  (∀ p, p ∈ plugins → ∃ verdict, sp_check p identifier = Ok verdict) →
  check_identifier plugins identifier w
  = execute (cleanup_step plugins identifier) w.
Proof.
  unfold cleanup_step, condemnedb.
  induction plugins as [|p r IH]; intros Hc; simpl.
  - by destruct w.
  - unfold bindM, lift. unfold not_valid at 1.
    destruct (Hc p) as (verdict & ->); [by left|].
    case_decide as Hv.
    + subst verdict. reflexivity.
    + rewrite IH by (intros q Hq; apply Hc; by right).
      by destruct verdict.
Qed.

Lemma take_N_subseteq {A} (n : N) (l : list A) x : x ∈ take_N n l → x ∈ l.
Proof.
  revert n. induction l as [|y r IH]; intros n; simpl; [done|].
  destruct (n =? 0)%N; [by intros ?%elem_of_nil|].
  intros [->|Hx]%elem_of_cons; [by left|]. right. by eapply IH.
Qed.

(** The cleanup returns when the checks do, and deletes the condemned
    identifiers among those [find] returned. *)
Lemma cleanup_returns self w :
  checks_return (scan_plugins self) (db w) →
  cleanup self w
  = (Ok (),
     {| db := foldl (λ d i, cleanup_step (scan_plugins self) i d) (db w)
                ((take_N default_limit (map_to_list (elements_of (db w)))).*1);
        emitted := emitted w |}).
Proof.
  intros Hc. unfold cleanup, bindM. rewrite find_None.
  unfold effective_limit.
  apply (for_each_commands _ _ (cleanup_step (scan_plugins self))).
  intros identifier w' ([i e] & -> & Hin%take_N_subseteq)%list_elem_of_fmap.
  apply check_identifier_spec. intros p Hp. apply Hc; [done|].
  apply elem_of_map_to_list in Hin. by exists e.
Qed.

Lemma cleanup_steps_lookup plugins keys d j :
  elements_of (foldl (λ d i, cleanup_step plugins i d) d keys) !! j
  = if condemnedb plugins j && bool_decide (j ∈ keys) then None
    else elements_of d !! j.
Proof.
  revert d. induction keys as [|i r IH]; intros d; simpl.
  - by rewrite andb_false_r.
  - rewrite IH. unfold cleanup_step.
    destruct (condemnedb plugins j) eqn:Hj; simpl.
    + destruct (decide (j = i)) as [->|Hne].
      * rewrite Hj. simpl. rewrite lookup_delete_eq.
        rewrite (bool_decide_eq_true_2 (i ∈ i :: r)) by (by left).
        by case_bool_decide.
      * assert (bool_decide (j ∈ i :: r) = bool_decide (j ∈ r)) as ->.
        { apply bool_decide_ext. rewrite elem_of_cons. naive_solver. }
        case_bool_decide; [done|].
        destruct (condemnedb plugins i); [|done]. simpl.
        by rewrite lookup_delete_ne.
    + destruct (condemnedb plugins i) eqn:Hi; [|done]. simpl.
      rewrite lookup_delete_ne; [done|]. intros ->. congruence.
Qed.

Lemma cleanup_steps_rest plugins keys d :
  tag_rows (foldl (λ d i, cleanup_step plugins i d) d keys) = tag_rows d
  ∧ settings_row (foldl (λ d i, cleanup_step plugins i d) d keys)
    = settings_row d.
Proof.
  revert d. induction keys as [|i r IH]; intros d; [done|]. simpl.
  destruct (IH (cleanup_step plugins i d)) as [-> ->].
  unfold cleanup_step. by destruct (condemnedb plugins i).
Qed.

Lemma cleaned_lookup plugins d j :
  elements_of (cleaned plugins d) !! j
  = if condemnedb plugins j then None else elements_of d !! j.
Proof.
  unfold cleaned. simpl. rewrite map_lookup_filter.
  destruct (elements_of d !! j) as [e|]; simpl.
  - destruct (condemnedb plugins j); [by rewrite option_guard_False|].
    by rewrite option_guard_True.
  - by destruct (condemnedb plugins j).
Qed.

Lemma cleanup_steps_cleaned plugins d :
  foldl (λ d i, cleanup_step plugins i d) d ((map_to_list (elements_of d)).*1)
  = cleaned plugins d.
Proof.
  destruct (cleanup_steps_rest plugins ((map_to_list (elements_of d)).*1) d)
    as [Ht Hs].
  apply db_eq; [|done..].
  apply map_eq. intros j. rewrite cleanup_steps_lookup, cleaned_lookup.
  destruct (condemnedb plugins j); [|done]. simpl.
  case_bool_decide as Hin; [done|].
  destruct (elements_of d !! j) as [e|] eqn:He; [|done].
  exfalso. apply Hin. apply list_elem_of_fmap. exists (j, e).
  split; [done|]. by apply elem_of_map_to_list.
Qed.

(** The cleanup, when every [check] returns and the catalog is within the
    default limit of [find]: the condemned identifiers are deleted. *)
Lemma cleanup_spec self w :
  checks_return (scan_plugins self) (db w) →
  within_limit (size (elements_of (db w))) →
  cleanup self w
  = (Ok (), {| db := cleaned (scan_plugins self) (db w);
               emitted := emitted w |}).
Proof.
  intros Hc Hl. rewrite cleanup_returns by done.
  rewrite take_N_all by (by rewrite length_map_to_list).
  by rewrite cleanup_steps_cleaned.
Qed.

(** C3, as the code has it: when every [check] returns a verdict for the
    identifiers of the catalog and the catalog holds no more identifiers
    than the default limit of [find], the
    cleanup of a full scan goes through the whole catalog, whatever this
    pass touched: an identifier for which some plugin's [check] returns
    [NOT_VALID] is removed, and an identifier for which no plugin's does
    (every verdict is [IS_VALID] or [UNKNOWN], or there is no plugin) stays
    with its entry unchanged; nothing else in the database changes and
    nothing is emitted. *)
Theorem cleanup_removes_not_valid (self : Project) (w : World) :
  checks_return (scan_plugins self) (db w) →
  within_limit (size (elements_of (db w))) →
  ∃ w',
    cleanup self w = (Ok (), w')
    ∧ emitted w' = emitted w
    ∧ tag_rows (db w') = tag_rows (db w)
    ∧ settings_row (db w') = settings_row (db w)
    ∧ ∀ identifier,
        (condemned (scan_plugins self) identifier →
         elements_of (db w') !! identifier = None)
        ∧ (¬ condemned (scan_plugins self) identifier →
           elements_of (db w') !! identifier
           = elements_of (db w) !! identifier).
Proof.
  intros Hc Hl. eexists. split; [by apply cleanup_spec|].
  split_and!; [done..|]. intros identifier. cbn [db]. rewrite cleaned_lookup.
  split.
  - intros ->%condemnedb_true. done.
  - intros Hn. destruct (condemnedb _ _) eqn:E; [|done].
    by apply condemnedb_true in E.
Qed.

Lemma cleanup_removes_not_valid_witness :
  ∃ w',
    cleanup drive_scanner stale_catalog = (Ok (), w')
    ∧ emitted w' = emitted stale_catalog
    ∧ tag_rows (db w') = tag_rows (db stale_catalog)
    ∧ settings_row (db w') = settings_row (db stale_catalog)
    ∧ ∀ identifier,
        (condemned (scan_plugins drive_scanner) identifier →
         elements_of (db w') !! identifier = None)
        ∧ (¬ condemned (scan_plugins drive_scanner) identifier →
           elements_of (db w') !! identifier
           = elements_of (db stale_catalog) !! identifier).
Proof.
  apply (cleanup_removes_not_valid drive_scanner stale_catalog).
  - intros p identifier Hp [e He].
    apply list_elem_of_singleton in Hp as ->.
    unfold stale_catalog, catalog_of, world_of in He.
    cbn [db elements_of] in He.
    apply lookup_insert_Some in He as [[<- _]|[_ He]];
      [by exists UNKNOWN|].
    apply lookup_singleton_Some in He as [<- _]. by exists NOT_VALID.
  - vm_compute. discriminate.
Defined.

(** C3 as stated fails when a [check] raises: the file scanner's [check]
    returns [NOT_VALID] for "d:/gone.txt", but raises [IndexError] on "c:",
    which the cleanup reaches first; the exception ends the pass and
    "d:/gone.txt" stays in the catalog. *)
Lemma cleanup_aborted_counterexample :
  condemned (scan_plugins drive_scanner) "d:/gone.txt"
  ∧ fst (cleanup drive_scanner drive_catalog) = Raise IndexError
  ∧ elements_of (db (snd (cleanup drive_scanner drive_catalog)))
      !! "d:/gone.txt"
    = Some (untagged "d:/gone.txt").
Proof.
  split_and!.
  - exists (FileScanner.plugin no_files). split; [by left|reflexivity].
  - vm_compute. reflexivity.
  - vm_compute. reflexivity.
Qed.

(** ** The tagging phase of a full scan *)

Lemma with_tags_empty e : with_tags ∅ e = e.
Proof.
  destruct e as [n ts]. unfold with_tags. simpl. f_equal. set_solver.
Qed.

Lemma with_tags_add_tag t ts e :
  with_tags ts (add_tag t e) = with_tags ({[t]} ∪ ts) e.
Proof. unfold with_tags, add_tag. simpl. f_equal. set_solver. Qed.

Lemma with_tags_with_tags ts1 ts2 e :
  with_tags ts1 (with_tags ts2 e) = with_tags (ts1 ∪ ts2) e.
Proof. unfold with_tags. simpl. f_equal. set_solver. Qed.

Lemma with_tags_twice ts e : with_tags ts (with_tags ts e) = with_tags ts e.
Proof. rewrite with_tags_with_tags. f_equal. set_solver. Qed.

Lemma insert_tags_spec (l : list string) d :
  foldl (λ d t, Sql.tag_insert t d) d l
  = with_tag_rows d (list_to_set l ∪ tag_rows d).
Proof.
  revert d. induction l as [|t r IH]; intros d; simpl.
  - destruct d. unfold with_tag_rows. simpl. f_equal. set_solver.
  - rewrite IH. unfold Sql.tag_insert, with_tag_rows. simpl. f_equal.
    set_solver.
Qed.

(** Linking one identifier to tags that all have their row. *)
Lemma connect_tags_spec identifier (ts : list string) d :
  (∀ t, t ∈ ts → t ∈ tag_rows d) →
  foldl (λ d t, Sql.tag_connect identifier t d) d ts
  = with_elements d
      (alter (with_tags (list_to_set ts)) identifier (elements_of d)).
Proof.
  revert d. induction ts as [|t r IH]; intros d Hrows; simpl.
  - apply db_eq; [|done..]. simpl. apply map_eq. intros j.
    rewrite lookup_alter. destruct (decide (identifier = j)) as [->|]; [|done].
    destruct (elements_of d !! j); [|done]. simpl. by rewrite with_tags_empty.
  - unfold Sql.tag_connect at 2.
    rewrite bool_decide_eq_true_2 by (apply Hrows; by left).
    rewrite IH by (intros t' Ht'; simpl; apply Hrows; by right).
    apply db_eq; [|done..]. simpl. apply map_eq. intros j.
    rewrite !lookup_alter. destruct (decide (identifier = j)) as [->|].
    + rewrite decide_True by done.
      destruct (elements_of d !! j); [|done]. simpl.
      by rewrite with_tags_add_tag.
    + done.
Qed.

Lemma connect_entries_spec (l : list (string * list string)) d :
  NoDup l.*1 →
  (∀ i ts t, (i, ts) ∈ l → t ∈ ts → t ∈ tag_rows d) →
  tag_rows (foldl (λ d entry, connect_entry entry d) d l) = tag_rows d
  ∧ settings_row (foldl (λ d entry, connect_entry entry d) d l)
    = settings_row d
  ∧ ∀ j, elements_of (foldl (λ d entry, connect_entry entry d) d l) !! j
         = with_tags (tags_for (list_to_map l) j) <$> elements_of d !! j.
Proof.
  revert d. induction l as [|[i ts] r IH]; intros d Hnd Hrows.
  - split_and!; [done..|]. intros j. unfold tags_for. cbn [foldl list_to_map foldr].
    rewrite lookup_empty. destruct (elements_of d !! j); [|done].
    simpl. by rewrite with_tags_empty.
  - rewrite fmap_cons in Hnd. apply NoDup_cons in Hnd as [Hi Hnd].
    cbn [foldl].
    change (connect_entry (i, ts) d)
      with (foldl (λ d t, Sql.tag_connect i t d) d ts).
    rewrite connect_tags_spec by (intros t Ht; eapply Hrows; [by left|done]).
    destruct (IH (with_elements d
                    (alter (with_tags (list_to_set ts)) i (elements_of d))))
      as (Ht & Hs & Hl); [done| |].
    { intros i' ts' t Hin Ht. eapply Hrows; [by right|done]. }
    split_and!; [exact Ht|exact Hs|]. intros j. rewrite Hl.
    cbn [with_elements elements_of].
    rewrite lookup_alter. unfold tags_for. cbn [list_to_map foldr].
    destruct (decide (i = j)) as [->|Hne].
    + rewrite lookup_insert_eq.
      rewrite (not_elem_of_list_to_map_1 r j) by done.
      destruct (elements_of d !! j); [|done]. simpl. by rewrite with_tags_empty.
    + by rewrite lookup_insert_ne.
Qed.

Lemma expected_tags_covered self scanned_identifiers all_tags mapped_tags
    a m :
  expected_tags self scanned_identifiers all_tags mapped_tags = Ok (a, m) →
  (∀ i ts t, mapped_tags !! i = Some ts → t ∈ ts → t ∈ all_tags) →
  ∀ i ts t, m !! i = Some ts → t ∈ ts → t ∈ a.
Proof.
  revert all_tags mapped_tags.
  induction scanned_identifiers as [|x r IH]; intros a0 m0; simpl.
  - by intros [= <- <-].
  - destruct (get self x) as [[element|]|e]; simpl; [| |done].
    + destruct (mandatory_tags element x) as [expected|e]; simpl; [|done].
      intros Hr Hcov. eapply IH; [done|].
      intros i ts t Hi Ht. apply elem_of_app.
      destruct (decide (x = i)) as [->|Hne].
      * rewrite lookup_insert_eq in Hi. injection Hi as <-. by right.
      * rewrite lookup_insert_ne in Hi by done. left. by eapply Hcov.
    + apply IH.
Qed.

Lemma tagged_lookup self scanned_identifiers d j :
  elements_of (tagged self scanned_identifiers d) !! j
  = with_tags (tags_for (mapped_tags_of self scanned_identifiers) j)
    <$> elements_of d !! j.
Proof.
  unfold tagged. simpl.
  rewrite map_lookup_imap. by destruct (elements_of d !! j).
Qed.

(** A full scan collects the expected tags, which ends it when a data
    plugin raises; it then inserts and links them, and cleans up. *)
Lemma full_scan_spec self scanned_identifiers w :
  full_scan self scanned_identifiers w
  = match expected_tags self scanned_identifiers [] ∅ with
    | Ok _ => cleanup self {| db := tagged self scanned_identifiers (db w);
                              emitted := emitted w |}
    | Raise e => (Raise e, w)
    end.
Proof.
  unfold full_scan, tagged, all_tags_of, mapped_tags_of.
  unfold bindM at 1. unfold lift at 1.
  pose proof (expected_tags_covered self scanned_identifiers [] ∅) as Hcov.
  destruct (expected_tags _ _ _ _) as [[all_tags mapped_tags]|e]; [|done].
  specialize (Hcov all_tags mapped_tags eq_refl).
  unfold bindM at 1. rewrite for_each_execute.
  unfold bindM at 1.
  rewrite (for_each_commands _ _ connect_entry); last first.
  { intros [i ts] w' _. unfold connect_entry. simpl.
    by rewrite for_each_execute. }
  f_equal. f_equal. simpl.
  rewrite insert_tags_spec.
  destruct (connect_entries_spec (map_to_list mapped_tags)
              (with_tag_rows (db w)
                 (list_to_set (elements (list_to_set all_tags : gset string))
                  ∪ tag_rows (db w)))) as (Ht & Hs & Hl).
  { apply NoDup_fst_map_to_list. }
  { intros i ts t Hin%elem_of_map_to_list Ht. simpl.
    apply elem_of_union_l, elem_of_list_to_set, elem_of_elements,
      elem_of_list_to_set.
    eapply Hcov; [|done..]. by intros ??? ?%lookup_empty_Some. }
  apply db_eq.
  - apply map_eq. intros j. simpl in Hl. rewrite Hl. simpl.
    rewrite map_lookup_imap, list_to_map_to_list.
    by destruct (elements_of (db w) !! j).
  - rewrite Ht. simpl. by rewrite list_to_set_elements_L.
  - by rewrite Hs.
Qed.


Lemma checks_return_tagged plugins self scanned_identifiers d :
  checks_return plugins d →
  checks_return plugins (tagged self scanned_identifiers d).
Proof.
  intros Hc p identifier Hp Hin. apply Hc; [done|].
  rewrite tagged_lookup in Hin. by apply fmap_is_Some in Hin.
Qed.




(** ** Scanning twice *)

Section ScanTwice.

Variable self : Project.

Lemma added_cons i r d :
  added self (i :: r) d
  = added self r (Sql.add i (display_name self i) d).
Proof. done. Qed.

Lemma added_rest D d :
  tag_rows (added self D d) = tag_rows d
  ∧ settings_row (added self D d) = settings_row d.
Proof.
  revert d. induction D as [|i r IH]; intros d; [done|].
  rewrite added_cons. destruct (IH (Sql.add i (display_name self i) d))
    as [-> ->].
  unfold Sql.add. by destruct (elements_of d !! i).
Qed.

Lemma added_lookup D d j :
  elements_of (added self D d) !! j
  = match elements_of d !! j with
    | Some e => Some e
    | None => if bool_decide (j ∈ D) then Some (fresh self j) else None
    end.
Proof.
  revert d. induction D as [|i r IH]; intros d.
  - cbn [added foldl]. rewrite bool_decide_eq_false_2 by apply not_elem_of_nil.
    by destruct (elements_of d !! j).
  - rewrite added_cons, IH. unfold Sql.add.
    destruct (elements_of d !! i) as [ei|] eqn:Hi.
    + destruct (elements_of d !! j) as [ej|] eqn:Hj; [done|].
      assert (bool_decide (j ∈ i :: r) = bool_decide (j ∈ r)) as ->; [|done].
      apply bool_decide_ext. rewrite elem_of_cons.
      split; [intros [->|?]; [congruence|done]|by right].
    + cbn [with_elements elements_of].
      destruct (decide (i = j)) as [->|Hne].
      * rewrite lookup_insert_eq, Hi.
        by rewrite bool_decide_eq_true_2 by (by left).
      * rewrite lookup_insert_ne by done.
        destruct (elements_of d !! j) as [ej|]; [done|].
        assert (bool_decide (j ∈ i :: r) = bool_decide (j ∈ r)) as ->; [|done].
        apply bool_decide_ext. rewrite elem_of_cons.
        split; [intros [->|?]; [congruence|done]|by right].
Qed.

Lemma added_twice D d : added self D (added self D d) = added self D d.
Proof.
  destruct (added_rest D (added self D d)) as [Ht Hs].
  apply db_eq; [|done..]. apply map_eq. intros j.
  rewrite added_lookup. rewrite (added_lookup D d j).
  destruct (elements_of d !! j); [done|]. by case_bool_decide.
Qed.

Lemma added_size D d :
  (size (elements_of (added self D d)) ≤ size (elements_of d) + length D)%nat.
Proof.
  revert d. induction D as [|i r IH]; intros d; [simpl; lia|].
  rewrite added_cons. etrans; [apply IH|]. unfold Sql.add.
  destruct (elements_of d !! i) eqn:Hi; simpl; [lia|].
  rewrite map_size_insert_None by done. lia.
Qed.

Lemma tagged_rest D d :
  tag_rows (tagged self D d) = list_to_set (all_tags_of self D) ∪ tag_rows d
  ∧ settings_row (tagged self D d) = settings_row d.
Proof. done. Qed.

Lemma tagged_size D d :
  size (elements_of (tagged self D d)) = size (elements_of d).
Proof.
  rewrite <-!size_dom. f_equal. apply set_eq. intros j.
  rewrite !elem_of_dom, tagged_lookup. apply fmap_is_Some.
Qed.

Lemma scanned_db_lookup D d j :
  elements_of (scanned_db self D d) !! j
  = if condemnedb (scan_plugins self) j then None
    else with_tags (tags_for (mapped_tags_of self D) j)
         <$> elements_of (added self D d) !! j.
Proof. unfold scanned_db. by rewrite cleaned_lookup, tagged_lookup. Qed.

Lemma scanned_db_rest D d :
  tag_rows (scanned_db self D d)
  = list_to_set (all_tags_of self D) ∪ tag_rows d
  ∧ settings_row (scanned_db self D d) = settings_row d.
Proof.
  unfold scanned_db, cleaned. simpl.
  by destruct (added_rest D d) as [-> ->].
Qed.

Lemma scanned_db_twice D d :
  scanned_db self D (scanned_db self D d) = scanned_db self D d.
Proof.
  destruct (scanned_db_rest D (scanned_db self D d)) as [Ht Hs].
  destruct (scanned_db_rest D d) as [Ht' Hs'].
  apply db_eq.
  - apply map_eq. intros j. rewrite scanned_db_lookup.
    rewrite (added_lookup D (scanned_db self D d) j), !scanned_db_lookup.
    destruct (condemnedb (scan_plugins self) j); [done|].
    rewrite added_lookup.
    destruct (elements_of d !! j) as [e|]; simpl.
    + by rewrite with_tags_twice.
    + case_bool_decide; simpl; [|done]. by rewrite with_tags_twice.
  - rewrite Ht, Ht'. set_solver.
  - by rewrite Hs, Hs'.
Qed.

Lemma scanned_db_is_Some D d j :
  is_Some (elements_of (added self D (scanned_db self D d)) !! j) →
  is_Some (elements_of (added self D d) !! j).
Proof.
  rewrite added_lookup, scanned_db_lookup, (added_lookup D d j).
  destruct (condemnedb (scan_plugins self) j);
    destruct (elements_of d !! j); simpl; try done;
    case_bool_decide; simpl; done.
Qed.

End ScanTwice.

Lemma within_limit_le n m : within_limit n → (m ≤ n)%nat → within_limit m.
Proof. unfold within_limit. lia. Qed.

Lemma settings_same_row w1 w2 :
  settings_row (db w1) = settings_row (db w2) →
  fst (settings w1) = fst (settings w2).
Proof.
  intros E. unfold settings, bindM, fetch, except_IndexError, Sql.settings_get.
  rewrite E. by destruct (settings_row (db w2)) as [[?|?]|].
Qed.

Lemma loads_same_row self locations w1 w2 s :
  settings_row (db w1) = settings_row (db w2) →
  loads self locations w1 s → loads self locations w2 s.
Proof.
  intros E (Hf & Hs & Hc). split_and!; [done| |done].
  rewrite <-Hs. symmetry. by apply settings_same_row.
Qed.

Lemma loads_found self locations P w s :
  loads self locations w s → loads self locations (found self P w) s.
Proof.
  apply loads_same_row. cbn [found db].
  by destruct (added_rest self P (db w)) as [_ ->].
Qed.

(** A full scan whose discovery returned [D] and whose data plugins
    returned. *)
Lemma scan_full_db (self : Project) locations recursive w s
    (D : list string) r :
  loads self locations w s →
  tracks self
    (discover self (locations_of locations s)
       (skip_of (get_or_list s "skip_regex")) recursive) (Ok D) D →
  expected_tags self D [] ∅ = Ok r →
  checks_return (scan_plugins self) (added self D (db w)) →
  within_limit (size (elements_of (added self D (db w)))) →
  db (snd (scan self locations recursive true w)) = scanned_db self D (db w).
Proof.
  intros Hs Ht Hr Hc Hl. rewrite (scan_discovered _ _ _ _ _ _ D Hs Ht).
  rewrite full_scan_spec, Hr, cleanup_spec; [done| |].
  - by apply checks_return_tagged.
  - cbn [db]. by rewrite tagged_size.
Qed.

(** A scan that raises in the discovery or in the data plugins has added
    what was announced, and nothing else. *)
Lemma scan_raised_db (self : Project) locations recursive w s
    (P : list string) (r : Result (list string)) :
  loads self locations w s →
  tracks self
    (discover self (locations_of locations s)
       (skip_of (get_or_list s "skip_regex")) recursive) r P →
  (∀ D, r = Ok D → ∃ e, expected_tags self D [] ∅ = Raise e) →
  db (snd (scan self locations recursive true w)) = added self P (db w).
Proof.
  intros Hs Ht Hr. destruct r as [D|e].
  - destruct (Hr D eq_refl) as (e & He).
    assert (P = D) as ->.
    { destruct (discover_tracks self (locations_of locations s)
                  (skip_of (get_or_list s "skip_regex")) recursive)
        as (r' & P' & Ht' & Hok' & _).
      pose proof (Ht w) as E1. rewrite Ht' in E1.
      pose proof (f_equal fst E1) as E0. cbn [fst] in E0. subst r'.
      destruct (Hok' D eq_refl) as [-> _].
      apply (f_equal (λ x, emitted (snd x))) in E1. cbn [snd found emitted] in E1.
      apply app_inv_head in E1.
      assert (Inj (=) (=) EvScanned) by (by intros ?? [=]).
      symmetry. by apply (inj (fmap EvScanned)). }
    rewrite (scan_discovered _ _ _ _ _ _ D Hs Ht).
    by rewrite full_scan_spec, He.
  - rewrite (scan_unfold _ _ _ _ _ _ Hs). unfold bindM. by rewrite Ht.
Qed.

(** Scanning twice, once the scan gets as far as the discovery. *)
Lemma full_scan_twice_loaded (self : Project) (locations : PyArg)
    (recursive : bool) (w : World) (s : gmap string SettingValue) :
  loads self locations w s →
  let D := discovered (scan_plugins self) (locations_of locations s)
             (skip_of (get_or_list s "skip_regex")) recursive in
  checks_return (scan_plugins self) (added self D (db w)) →
  within_limit (size (elements_of (db w)) + length D) →
  let once := snd (scan self locations recursive true w) in
  db (snd (scan self locations recursive true once)) = db once.
Proof.
  intros Hs D Hc Hl once.
  destruct (discover_tracks self (locations_of locations s)
              (skip_of (get_or_list s "skip_regex")) recursive)
    as (r & P & Ht & Hok & _).
  destruct r as [f|e].
  - destruct (Hok f eq_refl) as [-> HP]. fold D in HP. subst P.
    destruct (expected_tags self D [] ∅) as [r|e] eqn:Hexp.
    + assert (db once = scanned_db self D (db w)) as Honce.
      { apply (scan_full_db _ _ _ _ s _ r); [done..|].
        eapply within_limit_le; [done|apply added_size]. }
      assert (loads self locations once s) as Hs'.
      { apply (loads_same_row _ _ w); [|done]. rewrite Honce.
        by destruct (scanned_db_rest self D (db w)) as [_ ->]. }
      rewrite (scan_full_db _ _ _ _ s D r Hs' Ht Hexp).
      * by rewrite Honce, scanned_db_twice.
      * rewrite Honce. intros p identifier Hp Hin. apply Hc; [done|].
        by eapply scanned_db_is_Some.
      * rewrite Honce. eapply within_limit_le; [done|].
        etrans; [|apply added_size]. rewrite <-!size_dom.
        apply subseteq_size. intros j. rewrite !elem_of_dom.
        apply scanned_db_is_Some.
    + assert (∀ w', loads self locations w' s →
                db (snd (scan self locations recursive true w'))
                = added self D (db w')) as Hscan.
      { intros w' Hw'. apply (scan_raised_db _ _ _ _ s D (Ok D)); [done..|].
        intros ? [= <-]. by exists e. }
      subst once. rewrite Hscan.
      * rewrite (Hscan w Hs). apply added_twice.
      * apply (loads_same_row _ _ w); [|done]. rewrite (Hscan w Hs).
        by destruct (added_rest self D (db w)) as [_ ->].
  - assert (∀ w', loads self locations w' s →
              db (snd (scan self locations recursive true w'))
              = added self P (db w')) as Hscan.
    { intros w' Hw'. by apply (scan_raised_db _ _ _ _ s P (Raise e)). }
    subst once. rewrite Hscan.
    + rewrite (Hscan w Hs). apply added_twice.
    + apply (loads_same_row _ _ w); [|done]. rewrite (Hscan w Hs).
      by destruct (added_rest self P (db w)) as [_ ->].
Qed.

(** C2, as the code has it: a second [scan(full=True)] over the same
    locations, settings and plugin outputs leaves the database, and so the
    set of identifiers and the tags of each, as the first scan left it,
    when every [check] returns for the identifiers of the catalog and the
    catalog, with the identifiers yielded, stays within the default limit of
    [find].  This holds too when the same exception ends both runs: of the
    log line, the settings, the skip pattern, the discovery or a data
    plugin. *)
Theorem full_scan_twice_same_catalog (self : Project) (locations : PyArg)
    (recursive : bool) (w : World) :
  (∀ s, fst (settings w) = Ok s →
        let D := discovered (scan_plugins self) (locations_of locations s)
                   (skip_of (get_or_list s "skip_regex")) recursive in
        checks_return (scan_plugins self) (added self D (db w))
        ∧ within_limit (size (elements_of (db w)) + length D)) →
  let once := snd (scan self locations recursive true w) in
  db (snd (scan self locations recursive true once)) = db once.
Proof.
  intros H once. subst once.
  destruct (prelude self locations w) as [s|e] eqn:Hs.
  - apply prelude_loads in Hs. destruct (H s) as [Hc Hl]; [apply Hs|].
    by apply (full_scan_twice_loaded _ _ _ _ s).
  - rewrite (scan_prelude_raise _ _ _ _ _ e Hs). cbn [snd].
    by rewrite (scan_prelude_raise _ _ _ _ _ e Hs).
Qed.

Lemma full_scan_twice_same_catalog_witness :
  db (snd (scan tidy (AStr "/data") true true
             (snd (scan tidy (AStr "/data") true true (world_of empty_db)))))
  = db (snd (scan tidy (AStr "/data") true true (world_of empty_db))).
Proof.
  apply (full_scan_twice_same_catalog tidy (AStr "/data") true
           (world_of empty_db)).
  intros s [= <-]. split.
  - intros p identifier Hp _. apply list_elem_of_singleton in Hp as ->.
    simpl. destruct (String.eqb identifier "gone.txt"); by eexists.
  - vm_compute. discriminate.
Defined.

(** ** A catalog beyond the limit of [find] *)

Lemma take_N_take {A} (n : nat) (l : list A) :
  take_N (N.of_nat n) l = take n l.
Proof.
  revert n. induction l as [|x r IH]; intros n; [by destruct n|].
  destruct n as [|k]; [done|]. cbn [take_N take].
  destruct (N.eqb_spec (N.of_nat (S k)) 0) as [E|_]; [lia|].
  f_equal. rewrite <-IH. f_equal. lia.
Qed.

Lemma default_limit_pos : (1 ≤ default_limit)%N.
Proof. vm_compute. discriminate. Qed.

Lemma tagged_nil self d : tagged self [] d = d.
Proof.
  apply db_eq; [|cbn; set_solver|done].
  apply map_eq. intros j. rewrite tagged_lookup.
  destruct (elements_of d !! j); [|done]. cbn. by rewrite with_tags_empty.
Qed.

Lemma numbered_size n : size (numbered n) = n.
Proof.
  unfold numbered. rewrite <-length_map_to_list.
  rewrite map_to_list_to_map.
  - by rewrite length_fmap, length_seq.
  - rewrite <-list_fmap_compose. apply NoDup_fmap_2; [|apply NoDup_seq].
    intros x y H. by apply (inj pretty).
Qed.

Section OverLimit.

Variables (w : World) (n : nat).
Hypothesis no_settings : settings_row (db w) = None.

Lemma strict_scan w' :
  settings_row (db w') = None →
  scan strict ANone true true w'
  = (Ok [], {| db := purged (db w');
               emitted := emitted w' ++ [EvScanComplete] |}).
Proof.
  intros Hnone. assert (loads strict ANone w' ∅) as Hl.
  { split_and!; [done| |done]. by rewrite settings_None. }
  rewrite (scan_discovered _ _ _ _ _ _ [] Hl) by apply tracks_ret.
  rewrite full_scan_spec. cbn [expected_tags]. rewrite found_nil, tagged_nil.
  rewrite cleanup_returns; [by destruct w'|].
  intros p identifier ->%list_elem_of_singleton _. by eexists.
Qed.

Lemma purged_lookup d j :
  elements_of (purged d) !! j
  = if bool_decide
         (j ∈ (take_N default_limit (map_to_list (elements_of d))).*1)
    then None else elements_of d !! j.
Proof. unfold purged. by rewrite cleanup_steps_lookup. Qed.

Lemma purged_settings d : settings_row (purged d) = settings_row d.
Proof.
  unfold purged.
  by destruct (cleanup_steps_rest [rejecting]
                 (take_N default_limit (map_to_list (elements_of d))).*1 d).
Qed.

Hypothesis crowd : size (elements_of (db w)) = S n.
Hypothesis at_limit : N.of_nat n = default_limit.

(** The first scan leaves the one identifier [find] did not return. *)
Lemma purged_once :
  ∃ k e, elements_of (purged (db w)) = {[ k := e ]}.
Proof.
  pose proof (NoDup_fst_map_to_list (elements_of (db w))) as Hnd.
  pose proof (length_map_to_list (elements_of (db w))) as Hlen.
  rewrite crowd in Hlen.
  assert (∀ j, elements_of (purged (db w)) !! j
               = if bool_decide
                      (j ∈ (take n (map_to_list (elements_of (db w)))).*1)
                 then None else elements_of (db w) !! j) as Hlook.
  { intros j. by rewrite purged_lookup, <-at_limit, take_N_take. }
  set (K := map_to_list (elements_of (db w))) in *.
  rewrite <-(take_drop n K) in Hnd.
  destruct (drop n K) as [|[k e] [|??]] eqn:Hdrop.
  - apply (f_equal length) in Hdrop. rewrite length_drop in Hdrop.
    simpl in Hdrop. lia.
  - exists k, e. apply map_eq. intros j. rewrite Hlook.
    rewrite fmap_app in Hnd. apply NoDup_app in Hnd as (_ & Hdis & _).
    assert ((k, e) ∈ K) as Hk.
    { rewrite <-(take_drop n K), Hdrop. apply elem_of_app. right. by left. }
    destruct (decide (j = k)) as [->|Hne].
    + rewrite lookup_singleton_eq. rewrite bool_decide_eq_false_2.
      * by apply elem_of_map_to_list in Hk.
      * intros Hin. apply (Hdis k Hin). simpl. by left.
    + rewrite lookup_singleton_ne by done. case_bool_decide as Hin; [done|].
      destruct (elements_of (db w) !! j) as [ej|] eqn:Hj; [|done].
      exfalso. apply elem_of_map_to_list in Hj. fold K in Hj.
      rewrite <-(take_drop n K), Hdrop in Hj.
      apply elem_of_app in Hj as [Hj|Hj].
      * apply Hin. apply list_elem_of_fmap. by exists (j, ej).
      * apply list_elem_of_singleton in Hj. congruence.
  - apply (f_equal length) in Hdrop. rewrite length_drop in Hdrop.
    simpl in Hdrop. lia.
Qed.

(** The second scan removes it. *)
Lemma purged_twice : elements_of (purged (purged (db w))) = ∅.
Proof.
  destruct purged_once as (k & e & Hone).
  apply map_eq. intros j. rewrite purged_lookup, Hone, lookup_empty.
  rewrite map_to_list_singleton, take_N_all.
  - simpl. case_bool_decide as Hin; [done|].
    apply lookup_singleton_ne. intros ->. apply Hin. by left.
  - apply default_limit_pos.
Qed.

Lemma over_limit_scan_twice :
  let once := snd (scan strict ANone true true w) in
  size (elements_of (db once)) = 1%nat
  ∧ elements_of (db (snd (scan strict ANone true true once))) = ∅.
Proof.
  intros once. subst once. rewrite (strict_scan w no_settings). cbn [snd db].
  split.
  - destruct purged_once as (k & e & ->). apply map_size_singleton.
  - rewrite strict_scan by (cbn [db]; by rewrite purged_settings).
    cbn [snd db]. apply purged_twice.
Qed.

End OverLimit.

(** C2 as stated fails beyond the limit of [find].  Every identifier of the
    catalog "0", "1", ... of [9 ** 9 + 1] identifiers is rejected by the one
    scan plugin; the cleanup of the first full scan goes through the
    [9 ** 9] identifiers [find(None)] returns and removes them, leaving one,
    which the second scan, over the same locations and sources, removes. *)
Lemma full_scan_twice_counterexample :
  let once := snd (scan strict ANone true true crowded) in
  size (elements_of (db crowded)) = S (N.to_nat default_limit)
  ∧ size (elements_of (db once)) = 1%nat
  ∧ elements_of (db (snd (scan strict ANone true true once))) = ∅.
Proof.
  split; [apply numbered_size|].
  apply (over_limit_scan_twice crowded (N.to_nat default_limit)).
  - reflexivity.
  - apply numbered_size.
  - apply N2Nat.id.
Qed.

(** * Further properties *)

(** ** Signals *)

Lemma emit_callables_app callables item args :
  emit_callables (callables ++ [item]) args
  = rbind (emit_callables callables args) (λ _, item args).
Proof.
  induction callables as [|c r IH]; simpl.
  - by destruct (item args) as [[]|].
  - destruct (c args) as [[]|e]; simpl; [apply IH|done].
Qed.

(** X1: a callable connected to a signal is called after those connected
    before it, and only when all of them returned; when one of them raises,
    [emit] raises that exception and the later callable is not called. *)
Theorem emit_after_connect (sig : Signal) (item : Callable)
    (args : list string) :
  emit (connect sig item) args = rbind (emit sig args) (λ _, item args).
Proof. unfold emit, connect. simpl. apply emit_callables_app. Qed.

(** ** Paths *)

Lemma append_cons c (a b : string) : String c a +:+ b = String c (a +:+ b).
Proof. reflexivity. Qed.

Lemma append_assoc (a b c : string) : a +:+ (b +:+ c) = (a +:+ b) +:+ c.
Proof.
  induction a as [|x r IH]; [done|]. rewrite !append_cons. by rewrite IH.
Qed.

Lemma append_nil_r (a : string) : a +:+ "" = a.
Proof. induction a as [|x r IH]; [done|]. rewrite append_cons. by rewrite IH. Qed.

Lemma length_append (a b : string) :
  String.length (a +:+ b) = (String.length a + String.length b)%nat.
Proof.
  induction a as [|x r IH]; [done|]. rewrite append_cons. simpl. by rewrite IH.
Qed.

Lemma endswith_refl s : endswith s s = true.
Proof. destruct s; simpl; [done|]. by rewrite Ascii.eqb_refl, String.eqb_refl. Qed.

Lemma endswith_app a b : endswith (a +:+ b) b = true.
Proof.
  induction a as [|c r IH].
  - apply endswith_refl.
  - rewrite append_cons. simpl. rewrite IH. apply orb_true_r.
Qed.

(** X2: the path [create] loads always ends with "fracture", and a path
    it produced is taken as it is. *)
Theorem project_path_ends_with_fracture (path : string) :
  endswith (Access.project_path path) "fracture" = true
  ∧ Access.project_path (Access.project_path path) = Access.project_path path.
Proof.
  assert (endswith (Access.project_path path) "fracture" = true) as H.
  { unfold Access.project_path.
    destruct (endswith path "fracture") eqn:E; simpl; [done|].
    change ".fracture" with ("." +:+ "fracture").
    rewrite append_assoc. apply endswith_app. }
  split; [done|]. unfold Access.project_path at 1. by rewrite H.
Qed.

Lemma conform_no_backslash item : has_char "\" (_conform item) = false.
Proof.
  unfold _conform. induction item as [|c r IH]; simpl; [done|].
  rewrite IH, orb_false_r.
  destruct (Ascii.eqb c "\") eqn:E; [reflexivity|exact E].
Qed.

Lemma conform_id item : has_char "\" item = false → _conform item = item.
Proof.
  unfold _conform. induction item as [|c r IH]; simpl; [done|].
  intros [Hc Hr]%orb_false_iff. rewrite Hc. by rewrite IH.
Qed.

(** X3: [_conform] leaves no backslash, changes nothing when applied
    again, and keeps the length. *)
Theorem conform_normalises (item : string) :
  has_char "\" (_conform item) = false
  ∧ _conform (_conform item) = _conform item
  ∧ String.length (_conform item) = String.length item.
Proof.
  split_and!.
  - apply conform_no_backslash.
  - apply conform_id, conform_no_backslash.
  - unfold _conform. induction item as [|c r IH]; simpl; [done|]. by rewrite IH.
Qed.

(** ** The lists kept in the settings *)

Lemma settings_loaded w s : fst (settings w) = Ok s → settings w = (Ok s, w).
Proof.
  intros Hs. pose proof (settings_pure w) as Hw.
  destruct (settings w) as [r w']. simpl in *. congruence.
Qed.






(** X5: once a [remove_...] call has stored [None] under a key, adding to
    that list raises [TypeError] ([None + [item]]) and stores nothing: the
    key stays [None]. *)
Theorem add_after_remove_raises (w : World) (s : gmap string SettingValue)
    (l : list string) (removed item : string) :
  settings_row (db w) = Some (Json s) →
  removed ∈ l →
  (s !! "scan_locations" = Some (VList l) →
   (do_ remove_scan_location removed; add_scan_location item) w
   = (Raise TypeError, after_remove "scan_locations" w s))
  ∧ (s !! "skip_regex" = Some (VList l) →
     (do_ remove_skip_regex removed; add_skip_regex item) w
     = (Raise TypeError, after_remove "skip_regex" w s))
  ∧ (s !! "plugin_locations" = Some (VList l) →
     (do_ remove_plugin_location removed; add_plugin_location item) w
     = (Raise TypeError, after_remove "plugin_locations" w s)).
Proof.
  intros Hs Hin.
  assert (∀ key, s !! key = Some (VList l) →
            (do_ remove_from_setting key removed; add_to_setting key item) w
            = (Raise TypeError, after_remove key w s)) as H.
  { intros key Hk. unfold bindM at 1.
    rewrite (remove_from_setting_present key w s Hs l removed Hk Hin).
    unfold add_to_setting, bindM.
    rewrite (settings_Json _ (<[key := VNone]> s)) by done.
    unfold lift, get_or_list. by rewrite lookup_insert_eq. }
  split_and!; apply H.
Qed.

Lemma add_after_remove_raises_witness :
  (do_ remove_scan_location "/data"; add_scan_location "/other") one_location
  = (Raise TypeError,
     after_remove "scan_locations" one_location
       {[ "scan_locations" := VList ["/data"];
          "skip_regex" := VList ["tmp"];
          "plugin_locations" := VList ["/plugins"] ]}).
Proof.
  destruct (add_after_remove_raises one_location
              {[ "scan_locations" := VList ["/data"];
                 "skip_regex" := VList ["tmp"];
                 "plugin_locations" := VList ["/plugins"] ]}
              ["/data"] "/data" "/other" eq_refl) as (H & _ & _).
  - by left.
  - apply H. reflexivity.
Defined.







(** X9: the paths [Project.__init__] hands to its factories always end
    with the built-in plugin directory, after the stored plugin locations
    when the project file exists; once [remove_plugin_location] has stored
    [None], building that list raises [AttributeError] ([None.append]). *)
Theorem plugin_paths_end_with_built_in (w : World)
    (s : gmap string SettingValue) (l : list string)
    (built_in removed : string) :
  plugin_paths false built_in w = (Ok [built_in], w)
  ∧ (fst (settings w) = Ok s →
     get_or_list s "plugin_locations" = VList l →
     plugin_paths true built_in w = (Ok (l ++ [built_in]), w))
  ∧ (settings_row (db w) = Some (Json s) →
     s !! "plugin_locations" = Some (VList l) →
     removed ∈ l →
     (do_ remove_plugin_location removed; plugin_paths true built_in) w
     = (Raise AttributeError, after_remove "plugin_locations" w s)).
Proof.
  split_and!.
  - done.
  - intros Hs Hk. unfold plugin_paths, plugin_locations, bindM.
    rewrite (settings_loaded _ _ Hs). unfold mret. by rewrite Hk.
  - intros Hs Hk Hin. unfold bindM at 1. unfold remove_plugin_location.
    rewrite (remove_from_setting_present _ w s Hs l removed Hk Hin).
    unfold plugin_paths, plugin_locations, bindM.
    rewrite (settings_Json _ (<["plugin_locations" := VNone]> s)) by done.
    unfold mret, get_or_list. by rewrite lookup_insert_eq.
Qed.

Lemma plugin_paths_end_with_built_in_witness :
  plugin_paths true "/built-in" one_location
  = (Ok (["/plugins"] ++ ["/built-in"]), one_location)
  ∧ (do_ remove_plugin_location "/plugins"; plugin_paths true "/built-in")
      one_location
    = (Raise AttributeError,
       after_remove "plugin_locations" one_location
         {[ "scan_locations" := VList ["/data"];
            "skip_regex" := VList ["tmp"];
            "plugin_locations" := VList ["/plugins"] ]}).
Proof.
  destruct (plugin_paths_end_with_built_in one_location
              {[ "scan_locations" := VList ["/data"];
                 "skip_regex" := VList ["tmp"];
                 "plugin_locations" := VList ["/plugins"] ]}
              ["/plugins"] "/built-in" "/plugins") as (_ & H2 & H3).
  split.
  - apply H2; reflexivity.
  - apply H3; [reflexivity..|]. by left.
Defined.

(** ** The spelling of tags *)

Lemma lower_ascii_idem c : lower_ascii (lower_ascii c) = lower_ascii c.
Proof. destruct c as [[] [] [] [] [] [] [] []]; reflexivity. Qed.

Lemma lower_idem s : lower (lower s) = lower s.
Proof.
  induction s as [|c r IH]; [done|]. simpl. by rewrite lower_ascii_idem, IH.
Qed.

Lemma tag_list_spec identifier (l : list string) w :
  tag identifier (AList l) w
  = (Ok (), {| db := foldl (λ d t, Sql.tags_add identifier (lower t) d)
                       (db w) l;
               emitted := emitted w |}).
Proof.
  unfold tag. revert w. induction l as [|t r IH]; intros w.
  - by destruct w.
  - rewrite fmap_cons. cbn [for_each]. unfold bindM, execute at 1.
    by rewrite IH.
Qed.

(** X10: [tag] stores tags in lowercase: for one tag or a list of tags it
    returns without raising, and tagging with any spelling has the effect of
    tagging with the lowercase spelling. *)
Theorem tag_ignores_case (identifier : string) (l : list string) (w : World) :
  fst (tag identifier (AList l) w) = Ok ()
  ∧ tag identifier (AList l) w = tag identifier (AList (lower <$> l)) w
  ∧ (∀ t, tag identifier (AStr t) w = tag identifier (AList [lower t]) w).
Proof.
  split_and!.
  - by rewrite tag_list_spec.
  - rewrite !tag_list_spec. do 2 f_equal.
    generalize (db w). induction l as [|t r IH]; intros d; [done|].
    simpl. by rewrite lower_idem, IH.
  - intros t. rewrite tag_list_spec. unfold tag. simpl.
    unfold bindM, execute, mret. simpl. by rewrite lower_idem.
Qed.


(** ** The order of a composite *)

Lemma Forall_insert_by_priority (P : DataPlugin → Prop) p l :
  P p → Forall P l → Forall P (insert_by_priority p l).
Proof.
  intros Hp Hl. rewrite insert_by_priority_perm. by constructor.
Qed.

Lemma insert_by_priority_sorted p l :
  StronglySorted by_priority l →
  StronglySorted by_priority (insert_by_priority p l).
Proof.
  induction 1 as [|q r Hr IH Hq]; simpl.
  - repeat constructor.
  - destruct (Z.leb_spec (priority q) (priority p)) as [Hle|Hlt].
    + constructor; [by constructor|]. constructor; [done|].
      eapply Forall_impl; [exact Hq|]. unfold by_priority. intros x Hx.
      simpl in Hx. lia.
    + constructor; [done|]. apply Forall_insert_by_priority; [|done].
      unfold by_priority. lia.
Qed.

Lemma sorted_by_priority_sorted l :
  StronglySorted by_priority (sorted_by_priority l).
Proof.
  induction l as [|p r IH]; simpl; [constructor|].
  by apply insert_by_priority_sorted.
Qed.

Lemma StronglySorted_filter_list {A} (R : A → A → Prop) (P : A → Prop)
    `{∀ x, Decision (P x)} (l : list A) :
  StronglySorted R l → StronglySorted R (filter P l).
Proof.
  induction 1 as [|x r Hr IH Hx]; [constructor|].
  rewrite filter_cons. case_decide; [|done]. constructor; [done|].
  apply Forall_forall. intros y [_ Hy]%list_elem_of_filter.
  by eapply Forall_forall in Hx.
Qed.

Lemma insert_by_priority_same k p l :
  filter (λ x, priority x = k) (insert_by_priority p l)
  = filter (λ x, priority x = k) (p :: l).
Proof.
  induction l as [|q r IH]; simpl; [done|].
  destruct (Z.leb_spec (priority q) (priority p)) as [Hle|Hlt]; [done|].
  rewrite (filter_cons _ q), IH, !filter_cons.
  repeat case_decide; try done. lia.
Qed.

Lemma sorted_by_priority_same k l :
  filter (λ x, priority x = k) (sorted_by_priority l)
  = filter (λ x, priority x = k) l.
Proof.
  induction l as [|p r IH]; [done|]. simpl.
  by rewrite insert_by_priority_same, !filter_cons, IH.
Qed.

(** X11: the plugins of a composite returned by [Project.get] are bound in
    descending priority, and bound plugins of one priority keep the order
    in which the factory listed them. *)
Theorem get_binds_by_priority (self : Project) (identifier : string)
    (r : option Composite) :
  get self identifier = Ok r →
  let bound := default [] r in
  StronglySorted by_priority bound
  ∧ ∀ k, filter (λ p, priority p = k) bound
         = filter (λ p, priority p = k)
             (filter (λ p, represents p identifier = true)
                     (data_plugins self)).
Proof.
  intros [Hb _]%get_bound bound. subst bound. rewrite Hb.
  unfold _data_plugins. split.
  - apply StronglySorted_filter_list, sorted_by_priority_sorted.
  - intros k. rewrite !list_filter_filter.
    rewrite (list_filter_iff _ (λ x, represents x identifier = true
                                     ∧ priority x = k)) by (intros; tauto).
    rewrite <-list_filter_filter, sorted_by_priority_same.
    rewrite list_filter_filter. apply list_filter_iff. intros; tauto.
Qed.

Lemma get_binds_by_priority_witness :
  StronglySorted by_priority [file_v1; file_v2]
  ∧ ∀ k, filter (λ p, priority p = k) [file_v1; file_v2]
         = filter (λ p, priority p = k)
             (filter (λ p, represents p "/v2/a.txt" = true)
                     (data_plugins (listing [file_v1; file_v2]))).
Proof.
  apply (get_binds_by_priority (listing [file_v1; file_v2]) "/v2/a.txt"
           (Some [file_v1; file_v2])).
  reflexivity.
Defined.

(** ** What a scan can do to the catalog *)

Lemma shrinks_ret {A} (a : A) : shrinks (mret a).
Proof. by intros w. Qed.

Lemma shrinks_lift {A} (r : Result A) : shrinks (lift r).
Proof. by intros w. Qed.

Lemma shrinks_fetch {A} (query : Database → A) : shrinks (fetch query).
Proof. by intros w. Qed.

Lemma shrinks_remove identifier : shrinks (remove identifier).
Proof. intros w. simpl. split; [apply delete_subseteq|done]. Qed.

Lemma shrinks_bind {A B} (m : M A) (k : A → M B) :
  shrinks m → (∀ a, shrinks (k a)) → shrinks (bindM m k).
Proof.
  intros Hm Hk w. unfold bindM. specialize (Hm w).
  destruct (m w) as [[a|e] w1]; simpl in *; [|done].
  destruct (Hk a w1) as (H1 & H2 & H3). destruct Hm as (H1' & H2' & H3').
  split_and!; [by etrans|congruence..].
Qed.

Lemma shrinks_for_each {A} (l : list A) (body : A → M unit) :
  (∀ x, shrinks (body x)) → shrinks (for_each l body).
Proof.
  intros Hb. induction l as [|x r IH]; [apply shrinks_ret|].
  simpl. apply shrinks_bind; [apply Hb|done].
Qed.

Lemma shrinks_check_identifier plugins identifier :
  shrinks (check_identifier plugins identifier).
Proof.
  induction plugins as [|p r IH]; [apply shrinks_ret|]. simpl.
  apply shrinks_bind; [apply shrinks_lift|]. intros verdict.
  case_decide; [apply shrinks_remove|done].
Qed.

Lemma shrinks_cleanup self : shrinks (cleanup self).
Proof.
  apply shrinks_bind.
  - unfold find. apply shrinks_bind; [apply shrinks_fetch|].
    intros; apply shrinks_lift.
  - intros identifiers. apply shrinks_for_each.
    intros. apply shrinks_check_identifier.
Qed.

(** The possible outcomes of a scan: the identifiers [P] were added and
    announced; then, in a full scan whose discovery returned, the expected
    tags were linked and the cleanup deleted entries, up to the point where
    it raised if it did. *)
Lemma scan_outcome (self : Project) (locations : PyArg)
    (recursive full : bool) (w : World) :
  ∃ P d rest,
    (d = added self P (db w) ∨ d = tagged self P (added self P (db w)))
    ∧ elements_of (db (snd (scan self locations recursive full w)))
      ⊆ elements_of d
    ∧ tag_rows (db (snd (scan self locations recursive full w))) = tag_rows d
    ∧ settings_row (db (snd (scan self locations recursive full w)))
      = settings_row (db w)
    ∧ emitted (snd (scan self locations recursive full w))
      = emitted w ++ (EvScanned <$> P) ++ rest
    ∧ (rest = [] ∨ rest = [EvScanComplete])
    ∧ (∀ f, fst (scan self locations recursive full w) = Ok f →
            f = P ∧ rest = [EvScanComplete])
    ∧ (full = false → d = added self P (db w)
                      ∧ elements_of (db (snd (scan self locations recursive
                                                full w)))
                        = elements_of d).
Proof.
  destruct (prelude self locations w) as [s|e] eqn:Hs.
  - apply prelude_loads in Hs.
    destruct (discover_tracks self (locations_of locations s)
                (skip_of (get_or_list s "skip_regex")) recursive)
      as (r & P & Ht & Hok & _).
    destruct (added_rest self P (db w)) as [HaT HaS].
    destruct r as [f|e].
    + destruct (Hok f eq_refl) as [-> _].
      rewrite (scan_discovered _ _ _ _ _ _ P Hs Ht).
      destruct full.
      * rewrite full_scan_spec.
        destruct (expected_tags self P [] ∅) as [expected|e].
        -- set (w1 := {| db := tagged self P (db (found self P w));
                         emitted := emitted (found self P w) |}).
           destruct (shrinks_cleanup self w1) as (Hsub & HT & HS).
           pose proof (silent_cleanup self w1) as Hem.
           destruct (tagged_rest self P (added self P (db w))) as [_ HtS].
           destruct (cleanup self w1) as [[[]|e] w2]; simpl in *.
           ++ exists P, (tagged self P (added self P (db w))), [EvScanComplete].
              split_and!; [by right|done|done|congruence| |by right| |done].
              ** by rewrite Hem, <-app_assoc.
              ** intros f Hf. split; [|done].
                 destruct (emit (scan_complete self) []); simpl in Hf;
                   congruence.
           ++ exists P, (tagged self P (added self P (db w))), [].
              split_and!; [by right|done|done|congruence| |by left|done|done].
              by rewrite Hem, app_nil_r.
        -- exists P, (added self P (db w)), []. simpl.
           split_and!; [by left|done|done|done| |by left|done|done].
           by rewrite app_nil_r.
      * exists P, (added self P (db w)), [EvScanComplete]. simpl.
        split_and!; [by left|done|done|done| |by right| |done].
        -- by rewrite <-app_assoc.
        -- intros f Hf. split; [|done].
           destruct (emit (scan_complete self) []); simpl in Hf; congruence.
    + exists P, (added self P (db w)), [].
      assert (scan self locations recursive full w
              = (Raise e, found self P w)) as ->.
      { rewrite (scan_unfold _ _ _ _ _ _ Hs). unfold bindM. by rewrite Ht. }
      simpl. split_and!; [by left|done|done|done| |by left|done|done].
      by rewrite app_nil_r.
  - rewrite (scan_prelude_raise _ _ _ _ _ e Hs).
    exists [], (db w), []. simpl.
    split_and!; [by left|done|done|done| |by left|done|done].
    by rewrite app_nil_r.
Qed.

(** What the first loop of a full scan has mapped when it returns: nothing
    new for an identifier that was not scanned, and the mandatory tags of
    its composite for a scanned identifier that has one. *)
Lemma expected_tags_unscanned self scanned_identifiers all_tags mapped_tags
    a m j :
  expected_tags self scanned_identifiers all_tags mapped_tags = Ok (a, m) →
  j ∉ scanned_identifiers → m !! j = mapped_tags !! j.
Proof.
  revert all_tags mapped_tags.
  induction scanned_identifiers as [|x r IH]; intros a0 m0; simpl.
  - by intros [= <- <-].
  - intros Hr Hj. apply not_elem_of_cons in Hj as [Hne Hj].
    destruct (get self x) as [[element|]|e]; simpl in Hr; [| |done].
    + destruct (mandatory_tags element x) as [expected|e]; simpl in Hr;
        [|done].
      rewrite (IH _ _ Hr Hj). by rewrite lookup_insert_ne.
    + by apply (IH _ _ Hr).
Qed.


Lemma tags_for_unscanned self scanned_identifiers j :
  j ∉ scanned_identifiers →
  tags_for (mapped_tags_of self scanned_identifiers) j = ∅.
Proof.
  intros Hj. unfold tags_for, mapped_tags_of.
  destruct (expected_tags self scanned_identifiers [] ∅) as [[a m]|e] eqn:Hr.
  - by rewrite (expected_tags_unscanned _ _ _ _ _ _ _ Hr Hj), lookup_empty.
  - by rewrite lookup_empty.
Qed.



(** X14: in every scan the events emitted are [scanned] events followed by
    at most one [scan_complete], which is the last event; when the scan
    returns, [scan_complete] was emitted and the list returned is the list
    of the identifiers announced, in that order. *)
Theorem scan_trace (self : Project) (locations : PyArg)
    (recursive full : bool) (w : World) :
  ∃ announced rest,
    emitted (snd (scan self locations recursive full w))
    = emitted w ++ (EvScanned <$> announced) ++ rest
    ∧ (rest = [] ∨ rest = [EvScanComplete])
    ∧ ∀ found, fst (scan self locations recursive full w) = Ok found →
               found = announced ∧ rest = [EvScanComplete].
Proof.
  destruct (scan_outcome self locations recursive full w)
    as (P & d & rest & _ & _ & _ & _ & Hem & Hrest & Hok & _).
  by exists P, rest.
Qed.

(** X15: an identifier that is not announced in a scan is either deleted
    (by the cleanup of a full scan) or left exactly as it was. *)
Theorem scan_leaves_unannounced (self : Project) (locations : PyArg)
    (recursive full : bool) (w : World) :
  ∃ announced rest,
    emitted (snd (scan self locations recursive full w))
    = emitted w ++ (EvScanned <$> announced) ++ rest
    ∧ ∀ j, j ∉ announced →
           elements_of (db (snd (scan self locations recursive full w))) !! j
           = None
           ∨ elements_of (db (snd (scan self locations recursive full w))) !! j
             = elements_of (db w) !! j.
Proof.
  destruct (scan_outcome self locations recursive full w)
    as (P & d & rest & Hd & Hsub & _ & _ & Hem & _ & _ & _).
  exists P, rest. split; [done|]. intros j Hj.
  destruct (elements_of (db (snd (scan self locations recursive full w)))
              !! j) as [e'|] eqn:He; [|by left]. right.
  eapply lookup_weaken in He; [|exact Hsub].
  assert (elements_of (added self P (db w)) !! j = Some e') as Ha.
  { destruct Hd as [->| ->]; [done|].
    rewrite tagged_lookup, tags_for_unscanned in He by done.
    destruct (elements_of (added self P (db w)) !! j); [|done].
    simpl in He. by rewrite with_tags_empty in He. }
  rewrite added_lookup in Ha. rewrite bool_decide_eq_false_2 in Ha by done.
  by destruct (elements_of (db w) !! j).
Qed.




(** ** The file scanner's paths *)

Lemma split_char_nonempty sep s : split_char sep s ≠ [].
Proof.
  destruct s as [|c r]; simpl; [done|].
  destruct (Ascii.eqb c sep); [done|]. by destruct (split_char sep r).
Qed.

Lemma join_char_cons sep part rest :
  rest ≠ [] →
  join_char sep (part :: rest) = part +:+ String sep (join_char sep rest).
Proof. by destruct rest. Qed.

Lemma join_split_char sep s : join_char sep (split_char sep s) = s.
Proof.
  induction s as [|c r IH]; [done|]. cbn [split_char].
  pose proof (split_char_nonempty sep r) as Hne.
  destruct (Ascii.eqb_spec c sep) as [->|Hc].
  - rewrite join_char_cons by done. by rewrite IH.
  - destruct (split_char sep r) as [|part parts]; [done|].
    rewrite <-IH. destruct parts as [|p ps]; [done|].
    rewrite !join_char_cons by done. by rewrite append_cons.
Qed.

Lemma join_char_app sep l1 l2 :
  l1 ≠ [] → l2 ≠ [] →
  join_char sep (l1 ++ l2)
  = join_char sep l1 +:+ String sep (join_char sep l2).
Proof.
  induction l1 as [|x r IH]; intros H1 H2; [done|].
  destruct r as [|y r'].
  - simpl. by destruct l2.
  - rewrite <-app_comm_cons, !join_char_cons by done.
    rewrite IH by done. by rewrite <-append_assoc, append_cons.
Qed.

Lemma split_char_no_sep sep s part :
  part ∈ split_char sep s → has_char sep part = false.
Proof.
  revert part. induction s as [|c r IH]; intros part; cbn [split_char].
  - by intros ->%list_elem_of_singleton.
  - pose proof (split_char_nonempty sep r) as Hne.
    destruct (Ascii.eqb c sep) eqn:Hc.
    + intros [->|Hin]%elem_of_cons; [done|by apply IH].
    + destruct (split_char sep r) as [|p ps]; [done|].
      intros [->|Hin]%elem_of_cons.
      * simpl. rewrite Hc. apply IH. by left.
      * apply IH. by right.
Qed.

(** X17: every folder [above] returns for a location is a proper ancestor
    of the conformed location: the location is the folder, a slash and a
    rest; the folder is not empty, does not end with a colon (a bare drive),
    and is never the location itself. *)
Theorem above_returns_ancestors (location folder : string) :
  folder ∈ FileScannerOs.above location →
  folder ≠ ""
  ∧ endswith folder ":" = false
  ∧ folder ≠ _conform location
  ∧ ∃ rest, _conform location = folder +:+ String "/" rest.
Proof.
  unfold FileScannerOs.above. fold (_conform location).
  intros [Hin Hkeep]%list_elem_of_In%filter_In.
  apply andb_true_iff in Hkeep as [Hne%negb_true_iff Hcolon%negb_true_iff].
  apply String.eqb_neq in Hne.
  apply list_elem_of_In, list_elem_of_fmap in Hin as (i & -> & Hi).
  apply elem_of_seq in Hi as [_ Hi]. simpl in Hi.
  set (parts := split_char "/" (_conform location)) in *.
  assert (∃ rest, _conform location
                  = join_char "/" (slice_to_minus parts i) +:+ String "/" rest)
    as [rest Hrest].
  { unfold slice_to_minus in *. destruct (Nat.eqb_spec i 0) as [->|Hi0]; [done|].
    set (k := length parts - i) in *.
    exists (join_char "/" (drop k parts)).
    rewrite <-join_char_app.
    - rewrite take_drop. apply eq_sym, join_split_char.
    - intros Ht. by rewrite Ht in Hne.
    - intros Hd%(f_equal length). rewrite length_drop, length_nil in Hd.
      subst k. lia. }
  split_and!; [done|done| |by exists rest].
  intros Heq. apply (f_equal String.length) in Hrest.
  rewrite <-Heq, length_append in Hrest. simpl in Hrest. lia.
Qed.

Lemma above_returns_ancestors_witness :
  "C:/a" ≠ ""
  ∧ endswith "C:/a" ":" = false
  ∧ "C:/a" ≠ _conform "C:\a\b\c.txt"
  ∧ ∃ rest, _conform "C:\a\b\c.txt" = "C:/a" +:+ String "/" rest.
Proof.
  apply (above_returns_ancestors "C:\a\b\c.txt" "C:/a").
  vm_compute. right. by left.
Defined.

Lemma replace_char_no_old old new s :
  old ≠ new → has_char old (replace_char old new s) = false.
Proof.
  intros Hne. induction s as [|c r IH]; simpl; [done|].
  rewrite IH, orb_false_r.
  destruct (Ascii.eqb_spec c old) as [->|Hc].
  - by apply Ascii.eqb_neq.
  - by apply Ascii.eqb_neq.
Qed.



(** X19: the folders [below] returns hold no backslash and are
    directories; [below] raises what [os.listdir] raises. *)
Theorem below_returns_directories (os : FileScannerOs.Os)
    (location : string) :
  (∀ folders folder,
     FileScannerOs.below os location = Ok folders → folder ∈ folders →
     has_char "\" folder = false ∧ FileScannerOs.os_path_isdir os folder = true)
  ∧ (∀ e, FileScannerOs.os_listdir os location = Raise e →
          FileScannerOs.below os location = Raise e).
Proof.
  unfold FileScannerOs.below. split.
  - intros folders folder.
    destruct (FileScannerOs.os_listdir os location) as [names|e]; [|done].
    simpl. intros [= <-] [Hin Hd]%list_elem_of_In%filter_In. split; [|done].
    apply list_elem_of_In, list_elem_of_fmap in Hin as (name & -> & _).
    by apply replace_char_no_old.
  - by intros e ->.
Qed.

(** ** The statements of a command file *)

Lemma lstrip_head s :
  lstrip s = "" ∨ ∃ c r, lstrip s = String c r ∧ isspace c = false.
Proof.
  induction s as [|c r IH]; [by left|]. simpl.
  destruct (isspace c) eqn:E; [done|]. right. by exists c, r.
Qed.

Lemma rstrip_head c r :
  isspace c = false → ∃ r', rstrip (String c r) = String c r'.
Proof. intros E. simpl. rewrite E. destruct (rstrip r); by eexists. Qed.

Lemma rstrip_idem s : rstrip (rstrip s) = rstrip s.
Proof.
  induction s as [|c r IH]; [done|]. simpl.
  destruct (rstrip r) as [|c' r'] eqn:Hr.
  - destruct (isspace c) eqn:E; [done|]. simpl. by rewrite E.
  - simpl. simpl in IH. by rewrite IH.
Qed.

Lemma lstrip_rstrip_lstrip s : lstrip (rstrip (lstrip s)) = rstrip (lstrip s).
Proof.
  destruct (lstrip_head s) as [->|(c & r & -> & E)]; [done|].
  destruct (rstrip_head c r E) as [r' ->]. simpl. by rewrite E.
Qed.

Lemma strip_idem s : strip (strip s) = strip s.
Proof. unfold strip. by rewrite lstrip_rstrip_lstrip, rstrip_idem. Qed.

Lemma has_char_lstrip c s : has_char c s = false → has_char c (lstrip s) = false.
Proof.
  induction s as [|x r IH]; [done|]. simpl.
  intros [Hx Hr]%orb_false_iff. destruct (isspace x); [by apply IH|].
  simpl. by rewrite Hx, Hr.
Qed.

Lemma has_char_rstrip c s : has_char c s = false → has_char c (rstrip s) = false.
Proof.
  induction s as [|x r IH]; [done|]. simpl.
  intros [Hx Hr]%orb_false_iff. specialize (IH Hr).
  destruct (rstrip r) as [|c' r'].
  - destruct (isspace x); [done|]. simpl. by rewrite Hx.
  - simpl in *. by rewrite Hx, IH.
Qed.

(** X20: the statements read from the text of a command file are not
    empty, hold no semicolon, and have no white space left at either end
    (stripping them again changes nothing). *)
Theorem statements_are_stripped (text statement : string) :
  statement ∈ statements text →
  statement ≠ ""
  ∧ has_char ";" statement = false
  ∧ strip statement = statement.
Proof.
  unfold statements.
  intros (raw & -> & [Hin Hne]%list_elem_of_In%filter_In)%list_elem_of_fmap.
  apply negb_true_iff, String.eqb_neq in Hne.
  apply list_elem_of_In, split_char_no_sep in Hin.
  split_and!; [done| |apply strip_idem].
  unfold strip. by apply has_char_rstrip, has_char_lstrip.
Qed.

Lemma statements_are_stripped_witness :
  "INSERT y" ≠ ""
  ∧ has_char ";" "INSERT y" = false
  ∧ strip "INSERT y" = "INSERT y".
Proof.
  apply (statements_are_stripped "CREATE x;  INSERT y ;; " "INSERT y").
  vm_compute. right. by left.
Defined.

Lemma substring_prefix (name suffix : string) :
  substring 0 (String.length name) (name +:+ suffix) = name.
Proof.
  induction name as [|c r IH].
  - by destruct suffix.
  - rewrite append_cons. simpl. by rewrite IH.
Qed.

(** X21: a file of the command directory is registered under its name
    without the last four characters, whatever these are: there is no test
    for the ".sql" ending; of two files with one such name the statements
    of the one listed later are kept. *)
Theorem command_name_drops_four (name suffix : string) :
  String.length suffix = 4%nat →
  command_name (name +:+ suffix) = name
  ∧ ∀ files text,
      _command_dict (files ++ [(name +:+ suffix, text)]) !! name
      = Some (statements text).
Proof.
  intros Hlen.
  assert (command_name (name +:+ suffix) = name) as Hname.
  { unfold command_name. rewrite length_append, Hlen.
    replace (String.length name + 4 - 4)%nat with (String.length name) by lia.
    apply substring_prefix. }
  split; [done|]. intros files text. unfold _command_dict.
  rewrite foldl_app. simpl. by rewrite Hname, lookup_insert_eq.
Qed.

Lemma command_name_drops_four_witness :
  command_name ("find" +:+ ".sql") = "find"
  ∧ ∀ files text,
      _command_dict (files ++ [("find" +:+ ".sql", text)]) !! "find"
      = Some (statements text).
Proof. apply (command_name_drops_four "find" ".sql"). reflexivity. Defined.

(** ** Tagging and untagging lists of tags *)







(** ** Scans that end before the discovery or in a data plugin *)

(** X23: when the log line formats the locations and the settings load, a
    stored list of skip patterns whose joined text [re.compile] rejects ends
    every scan, whatever its arguments, with the exception of [re.compile]:
    nothing is scanned, added or emitted. *)
Theorem scan_uncompilable_pattern (self : Project) (locations : PyArg)
    (recursive full : bool) (w : World) (s : gmap string SettingValue)
    (pattern : string) (patterns : list string) (e : Exn) :
  format_s locations = Ok () →
  fst (settings w) = Ok s →
  get_or_list s "skip_regex" = VList (pattern :: patterns) →
  re_compile self ("(" +:+ String.concat ")|(" (pattern :: patterns) +:+ ")")
  = Raise e →
  scan self locations recursive full w = (Raise e, w).
Proof.
  intros Hf Hs Hp He. apply scan_prelude_raise. unfold prelude.
  rewrite Hf, Hs. cbn [rbind]. rewrite Hp. unfold compile_skip.
  cbn [skip_of]. unfold skip_pattern_text. by rewrite He.
Qed.

Lemma scan_uncompilable_pattern_witness :
  scan picky (AStr "/data") true true bad_pattern = (Raise ReError, bad_pattern).
Proof.
  apply (scan_uncompilable_pattern picky (AStr "/data") true true bad_pattern
           {[ "skip_regex" := VList ["["] ]} "[" []); reflexivity.
Defined.



